(** * Consumer-group output parsing (package kafka, parsing.go)

    A shallow embedding of [src/kafka/parsing.go] and the properties of its
    parsers: [parseGroups] for the list-groups output, [regexpParser] for one
    versioned describe-group format, and [DelegatingParser] that tries the
    formats in order.

    Conventions of the embedding.
    - A Go [string] is a sequence of bytes: [string] of 8-bit [ascii].
    - A Go [int64] is a [Z]; the places where the library code relies on
      64-bit wrap-around write it out with [mod].
    - A Go slice result is a [list]; the nil slice is the empty list.
    - A Go [error] result is an [option error], [None] being nil.
    - A Go function that may panic returns an [outcome]. *)

From Stdlib Require Import ZArith Ascii String.
From stdpp Require Import base option list strings gmap.

Local Open Scope Z_scope.

(** ** Errors and panics *)

(** The two sentinel errors of package strconv. *)
Inductive strconv_Err := ErrSyntax | ErrRange.

(** Dynamic values of the interface [error] that this file can produce:
    the string errors of [errors.New] and [fmt.Errorf], and
    [*strconv.NumError]. *)
Inductive error :=
| errorString (msg : string)
| NumError (Func Num : string) (Err : strconv_Err).

Definition errors_New (text : string) : error := errorString text.

(** [fmt.Errorf] with a format that holds a single [%s] verb: [before] and
    [after] are the text around the verb. *)
Definition fmt_Errorf (before arg after : string) : error :=
  errorString (before +:+ arg +:+ after).

(** The result of running a Go function: it returns, or it panics with a
    run-time error (here always an index out of range). *)
Inductive outcome (A : Type) :=
| Returned (a : A)
| Panicked.
Arguments Returned {A} a.
Arguments Panicked {A}.

Global Instance outcome_ret : MRet outcome := fun A a => Returned a.

Global Instance outcome_bind : MBind outcome := fun A B f o =>
  match o with
  | Returned a => f a
  | Panicked => Panicked
  end.

(** ** Package strings

    The three functions of Go's standard library that the program calls,
    after their documentation. *)

Module strings.

Definition newline : ascii := "010"%char.

Fixpoint HasPrefix (s prefix : string) {struct prefix} : bool :=
  match prefix, s with
  | EmptyString, _ => true
  | String a prefix', String b s' => Ascii.eqb a b && HasPrefix s' prefix'
  | String _ _, EmptyString => false
  end.

(** [strings.Contains(s, substr)]: [substr] starts at some index of [s]. *)
Fixpoint Contains (s substr : string) : bool :=
  HasPrefix s substr ||
  match s with
  | EmptyString => false
  | String _ s' => Contains s' substr
  end.

(** [strings.Split(s, sep)] for a separator of one byte, the only kind the
    program uses.  The result is never empty: a string without separator,
    the empty string included, is its own single line. *)
Fixpoint Split (s : string) (sep : ascii) : list string :=
  match s with
  | EmptyString => [EmptyString]
  | String c s' =>
      if Ascii.eqb c sep then EmptyString :: Split s' sep
      else match Split s' sep with
           | l :: ls => String c l :: ls
           | [] => [String c EmptyString]
           end
  end.

(** [strings.Join(elems, sep)], used to state what [Split] computes. *)
Fixpoint Join (elems : list string) (sep : ascii) : string :=
  match elems with
  | [] => EmptyString
  | [l] => l
  | l :: ls => l +:+ String sep (Join ls sep)
  end.

Fixpoint Count (s : string) (c : ascii) : nat :=
  match s with
  | EmptyString => 0%nat
  | String a s' => ((if Ascii.eqb a c then 1 else 0) + Count s' c)%nat
  end.

End strings.

(** ** Package regexp

    Go's standard library, after its documentation.  The patterns of the program are built from literals, character classes,
    the greedy repetition [+] of a character class, concatenation and
    (named) capture groups; [Regexp] is the syntax tree of such a pattern.
    Matching is leftmost-first, as in Go: the leftmost start position wins,
    and at that position the match a backtracking search prefers, a greedy
    repetition trying its longest run first.

    Classes are sets of bytes.  The classes of the program delimit fields
    by ASCII bytes only, so reading a line byte by byte or rune by rune
    gives the same matches. *)

Module regexp.

(** A character class: a list of inclusive ranges, possibly negated. *)
Record charClass := { negated : bool; ranges : list (ascii * ascii) }.

Definition inRange (c : ascii) (r : ascii * ascii) : bool :=
  (N_of_ascii r.1 <=? N_of_ascii c)%N && (N_of_ascii c <=? N_of_ascii r.2)%N.

Definition classMatches (cc : charClass) (c : ascii) : bool :=
  xorb (negated cc) (existsb (inRange c) (ranges cc)).

Inductive Regexp :=
| Literal (s : string)
| CharClass (cc : charClass)
| Plus (cc : charClass)
| Concat (r1 r2 : Regexp)
| Capture (name : string) (r : Regexp).

(** [Capture name r] is [(?P<name>r)]; an unnamed group [(r)] has the
    empty name, as [SubexpNames] reports it. *)

Fixpoint concat (rs : list Regexp) : Regexp :=
  match rs with
  | [] => Literal EmptyString
  | [r] => r
  | r :: rs' => Concat r (concat rs')
  end.

(** Perl classes and the dot of Go's syntax. *)
Definition single (c : ascii) : ascii * ascii := (c, c).
Definition digit : charClass :=
  {| negated := false; ranges := [("0", "9")%char] |}.
Definition space : charClass :=
  {| negated := false;
     ranges := single <$> ["009"; "010"; "012"; "013"; " "]%char |}.
Definition notSpace : charClass :=
  {| negated := true; ranges := ranges space |}.
Definition anyCharNotNL : charClass :=
  {| negated := true; ranges := [single "010"%char] |}.

Fixpoint NumSubexp (re : Regexp) : nat :=
  match re with
  | Concat r1 r2 => (NumSubexp r1 + NumSubexp r2)%nat
  | Capture _ r => S (NumSubexp r)
  | _ => 0%nat
  end.

Fixpoint groupNames (re : Regexp) : list string :=
  match re with
  | Concat r1 r2 => groupNames r1 ++ groupNames r2
  | Capture name r => name :: groupNames r
  | _ => []
  end.

(** [re.SubexpNames()]: element 0 is the empty name of the whole match,
    element [i] the name of the [i]-th group in order of its opening
    parenthesis. *)
Definition SubexpNames (re : Regexp) : list string :=
  EmptyString :: groupNames re.

(** [stripPrefix s lit]: the rest of [s] after its prefix [lit]. *)
Fixpoint stripPrefix (s lit : string) {struct lit} : option string :=
  match lit, s with
  | EmptyString, _ => Some s
  | String a lit', String b s' =>
      if Ascii.eqb a b then stripPrefix s' lit' else None
  | String _ _, EmptyString => None
  end.

(** [consumed s rest]: the text between the start of [s] and its suffix
    [rest]. *)
Definition consumed (s rest : string) : string :=
  String.substring 0 (String.length s - String.length rest) s.

Section Backtrack.
Context {A : Type}.

(** Greedy [cc*] followed by the continuation [k]: the longest run
    first, then shorter ones. *)
Fixpoint star (cc : charClass) (s : string) (k : string -> option A)
  : option A :=
  match s with
  | String c s' =>
      if classMatches cc c then
        match star cc s' k with
        | Some r => Some r
        | None => k s
        end
      else k s
  | EmptyString => k s
  end.

Definition plus (cc : charClass) (s : string) (k : string -> option A)
  : option A :=
  match s with
  | String c s' => if classMatches cc c then star cc s' k else None
  | EmptyString => None
  end.

(** [backtrack re idx s cap k]: match [re] at the start of [s] and pass
    what is left and the captures to [k]; [idx] is the number of the
    first group of [re]. *)
Fixpoint backtrack (re : Regexp) (idx : nat) (s : string)
    (cap : list string) (k : string -> list string -> option A)
  : option A :=
  match re with
  | Literal lit =>
      match stripPrefix s lit with
      | Some rest => k rest cap
      | None => None
      end
  | CharClass cc =>
      match s with
      | String c s' => if classMatches cc c then k s' cap else None
      | EmptyString => None
      end
  | Plus cc => plus cc s (fun rest => k rest cap)
  | Concat r1 r2 =>
      backtrack r1 idx s cap (fun rest cap' =>
        backtrack r2 (idx + NumSubexp r1)%nat rest cap' k)
  | Capture _ r =>
      backtrack r (S idx) s cap (fun rest cap' =>
        k rest (<[idx := consumed s rest]> cap'))
  end.
End Backtrack.

(** A match of [re] that starts at the first byte of [s]. *)
Definition matchAt (re : Regexp) (s : string) : option (list string) :=
  backtrack re 1 s (replicate (S (NumSubexp re)) EmptyString)
    (fun rest cap => Some (<[0%nat := consumed s rest]> cap)).

(** The unanchored search: the leftmost start position that matches. *)
Fixpoint doExecute (re : Regexp) (s : string) : option (list string) :=
  match matchAt re s with
  | Some cap => Some cap
  | None =>
      match s with
      | String _ s' => doExecute re s'
      | EmptyString => None
      end
  end.

Definition MatchString (re : Regexp) (s : string) : bool :=
  bool_decide (is_Some (doExecute re s)).

(** [re.FindStringSubmatch(s)]: the text of the match and of every group,
    or nil when [s] has no match. *)
Definition FindStringSubmatch (re : Regexp) (s : string) : list string :=
  default [] (doExecute re s).

End regexp.

(** ** Package strconv: [ParseInt(s, 10, 64)]

    Go's standard library, after its source: an optional sign, then
    [ParseUint] on the digits with its two overflow tests, then the range
    test of the signed result. *)

Module strconv.

Definition maxUint64 : Z := 2 ^ 64 - 1.

(** Conversion of a [uint64] to [int64]. *)
Definition int64 (z : Z) : Z := (z + 2 ^ 63) mod 2 ^ 64 - 2 ^ 63.

Definition digitVal (c : ascii) : option Z :=
  let n := Z.of_N (N_of_ascii c) in
  if (48 <=? n) && (n <=? 57) then Some (n - 48) else None.

(** The digit loop of [ParseUint] for base 10 and 64 bits; [n] is the
    value read so far. *)
Fixpoint parseDigits (s : string) (n : Z) : Z * option strconv_Err :=
  match s with
  | EmptyString => (n, None)
  | String c s' =>
      match digitVal c with
      | None => (0, Some ErrSyntax)
      | Some d =>
          if n >=? maxUint64 / 10 + 1 then (maxUint64, Some ErrRange)
          else
            let n := (n * 10) mod 2 ^ 64 in
            let n1 := (n + d) mod 2 ^ 64 in
            if (n1 <? n) || (n1 >? maxUint64) then (maxUint64, Some ErrRange)
            else parseDigits s' n1
      end
  end.

Definition ParseUint (s : string) : Z * option error :=
  match s with
  | EmptyString => (0, Some (NumError "ParseUint" s ErrSyntax))
  | _ =>
      match parseDigits s 0 with
      | (n, None) => (n, None)
      | (n, Some e) => (n, Some (NumError "ParseUint" s e))
      end
  end.

Definition ParseInt (s0 : string) : Z * option error :=
  match s0 with
  | EmptyString => (0, Some (NumError "ParseInt" s0 ErrSyntax))
  | String c s1 =>
      let '(neg, s) :=
        if Ascii.eqb c "+" then (false, s1)
        else if Ascii.eqb c "-" then (true, s1)
        else (false, s0) in
      match ParseUint s with
      | (_, Some (NumError _ _ ErrSyntax)) =>
          (0, Some (NumError "ParseInt" s0 ErrSyntax))
      | (un, _) =>
          let cutoff := 2 ^ 63 in
          if negb neg && (un >=? cutoff) then
            (cutoff - 1, Some (NumError "ParseInt" s0 ErrRange))
          else if neg && (un >? cutoff) then
            (- cutoff, Some (NumError "ParseInt" s0 ErrRange))
          else
            let n := int64 un in
            (if neg then int64 (- n) else n, None)
      end
  end.

End strconv.

(** ** parseGroups *)

Definition runtimeFault : string := "java.lang.RuntimeException".

(** The loop of [parseGroups]: append every non-empty line. *)
Definition collectGroups (lines : list string) : list string :=
  fold_left (fun groups line =>
               if decide (line <> EmptyString) then groups ++ [line] else groups)
            lines [].

Definition parseGroups (output : string) : list string * option error :=
  if strings.Contains output runtimeFault then
    ([], Some (fmt_Errorf "Got runtime error when executing script. Output: "
                          output ""))
  else
    let lines := strings.Split output strings.newline in
    (collectGroups lines, None).

(** ** The describe-group parsers *)

(** Modelled from the spec: the struct [exporter.PartitionInfo] is declared
    in the imported exporter package, outside src/.  Its fields are those
    the composite literal of [parseLine] fills, with the types of the
    record of section 3 of the specification: two 64-bit signed integers
    and four strings. *)
Record PartitionInfo := {
  Topic : string;
  PartitionID : string;
  CurrentOffset : Z;
  Lag : Z;
  ClientID : string;
  ConsumerAddress : string
}.

(** A function that returns a pointer and an error: [(v, nil)] or
    [(nil, err)]. *)
Inductive result (A : Type) :=
| Ok (a : A)
| Err (e : error).
Arguments Ok {A} a.
Arguments Err {A} e.

(** What a [Parse] method returns, when it returns. *)
Definition parsed : Type := list PartitionInfo * option error.

Record regexpParser := {
  header : regexp.Regexp;
  line : regexp.Regexp;
  indexByName : gmap string nat
}.

(** [m[key]] on a Go map: the zero value when the key is absent. *)
Definition mapIndex (m : gmap string nat) (key : string) : nat :=
  default 0%nat (m !! key).

(** [s[i]] on a Go slice: a run-time panic when [i] is out of range, as
    every index is on the nil slice. *)
Definition sliceIndex {A} (s : list A) (i : nat) : outcome A :=
  match s !! i with
  | Some x => Returned x
  | None => Panicked
  end.

(** The first loop of [newRegexpParser]: [indexByName[name] = i]. *)
Fixpoint indexNames (i : nat) (names : list string) (m : gmap string nat)
  : gmap string nat :=
  match names with
  | [] => m
  | name :: names' => indexNames (S i) names' (<[name := i]> m)
  end.

Definition requiredFields : list string :=
  ["topic"; "partitionId"; "currentOffset"; "lag"; "clientId";
   "consumerAddress"].

(** The second loop: the error of the first required field that has no
    index. *)
Fixpoint missingField (m : gmap string nat) (fields : list string)
  : option error :=
  match fields with
  | [] => None
  | field :: fields' =>
      match m !! field with
      | Some _ => missingField m fields'
      | None =>
          Some (fmt_Errorf "line regexp missing '" field "' capturing group")
      end
  end.

Definition newRegexpParser (hdr ln : regexp.Regexp) : result regexpParser :=
  let indexByName := indexNames 0 (regexp.SubexpNames ln) ∅ in
  match missingField indexByName requiredFields with
  | Some e => Err e
  | None => Ok {| header := hdr; line := ln; indexByName := indexByName |}
  end.

Definition parseLong (value : string) : Z * option error :=
  match strconv.ParseInt value with
  | (_, Some err) => (-1, Some err)
  | (longVal, None) => (longVal, None)
  end.

(** [parseLine]: the two warnings it logs on a conversion error have no
    effect on what it returns. *)
Definition parseLine (p : regexpParser) (ln : string)
  : outcome (PartitionInfo * option error) :=
  let matches := regexp.FindStringSubmatch (line p) ln in
  currentOffsetText ← sliceIndex matches (mapIndex (indexByName p) "currentOffset");
  let '(currentOffset, _) := parseLong currentOffsetText in
  lagText ← sliceIndex matches (mapIndex (indexByName p) "lag");
  let '(lag, _) := parseLong lagText in
  topic ← sliceIndex matches (mapIndex (indexByName p) "topic");
  partitionID ← sliceIndex matches (mapIndex (indexByName p) "partitionId");
  clientID ← sliceIndex matches (mapIndex (indexByName p) "clientId");
  consumerAddress ← sliceIndex matches (mapIndex (indexByName p) "consumerAddress");
  mret ({| Topic := topic;
           PartitionID := partitionID;
           CurrentOffset := currentOffset;
           Lag := lag;
           ClientID := clientID;
           ConsumerAddress := consumerAddress |}, None).

(** The loop of [regexpParser.Parse] over the data lines. *)
Fixpoint parseLines (p : regexpParser) (dataLines : list string)
    (partitions : list PartitionInfo) : outcome parsed :=
  match dataLines with
  | [] => Returned (partitions, None)
  | ln :: dataLines' =>
      r ← parseLine p ln;
      match r with
      | (_, Some err) => Returned (partitions, Some err)
      | (partition, None) => parseLines p dataLines' (partitions ++ [partition])
      end
  end.

Definition regexpParser_Parse (p : regexpParser) (output : string)
  : outcome parsed :=
  match strings.Split output strings.newline with
  | [] => Returned ([], Some (errors_New "empty output"))
  | headerLine :: dataLines =>
      if negb (regexp.MatchString (header p) headerLine) then
        Returned ([], Some (errors_New "incorrect header"))
      else parseLines p dataLines []
  end.

(** The built-in formats. *)

(** [[a-zA-Z0-9\\._\\-]], written in a raw string literal: each [\\] is an
    escaped backslash, and the final [-] stands for itself. *)
Definition topicClass : regexp.charClass :=
  {| regexp.negated := false;
     regexp.ranges :=
       [("a", "z"); ("A", "Z"); ("0", "9"); ("\", "\"); (".", ".");
        ("_", "_"); ("\", "\"); ("-", "-")]%char |}.

(** [[^,]] *)
Definition notComma : regexp.charClass :=
  {| regexp.negated := true; regexp.ranges := [regexp.single ","%char] |}.

Section Patterns.
Import regexp.
Let ws := Plus space.
Let num := Plus digit.

(** [TOPIC\s+PARTITION\s+CURRENT-OFFSET\s+LOG-END-OFFSET\s+LAG\s+CONSUMER-ID\s+HOST\s+CLIENT-ID] *)
Definition header_0_10_2_1 : Regexp :=
  concat [Literal "TOPIC"; ws; Literal "PARTITION"; ws;
          Literal "CURRENT-OFFSET"; ws; Literal "LOG-END-OFFSET"; ws;
          Literal "LAG"; ws; Literal "CONSUMER-ID"; ws; Literal "HOST"; ws;
          Literal "CLIENT-ID"].

(** [(?P<topic>[a-zA-Z0-9\\._\\-]+)\s+(?P<partitionId>\d+)\s+(?P<currentOffset>\d+)\s+\d+\s+(?P<lag>\d+)\s+(?P<consumerId>\S+)\s+(?P<consumerAddress>\S+)\s+(?P<clientId>\S+)] *)
Definition line_0_10_2_1 : Regexp :=
  concat [Capture "topic" (Plus topicClass); ws;
          Capture "partitionId" num; ws;
          Capture "currentOffset" num; ws;
          num; ws;
          Capture "lag" num; ws;
          Capture "consumerId" (Plus notSpace); ws;
          Capture "consumerAddress" (Plus notSpace); ws;
          Capture "clientId" (Plus notSpace)].

(** [GROUP\s+TOPIC\s+PARTITION\s+CURRENT-OFFSET\s+LOG-END-OFFSET\s+LAG\s+OWNER] *)
Definition header_0_10_0_1 : Regexp :=
  concat [Literal "GROUP"; ws; Literal "TOPIC"; ws; Literal "PARTITION"; ws;
          Literal "CURRENT-OFFSET"; ws; Literal "LOG-END-OFFSET"; ws;
          Literal "LAG"; ws; Literal "OWNER"].

(** [.+\s+(?P<topic>[a-zA-Z0-9\\._\\-]+)\s+(?P<partitionId>\d+)\s+(?P<currentOffset>\d+)\s+\d+\s+(?P<lag>\d+)\s+(?P<clientId>\S+)_/(?P<consumerAddress>.+)] *)
Definition line_0_10_0_1 : Regexp :=
  concat [Plus anyCharNotNL; ws;
          Capture "topic" (Plus topicClass); ws;
          Capture "partitionId" num; ws;
          Capture "currentOffset" num; ws;
          num; ws;
          Capture "lag" num; ws;
          Capture "clientId" (Plus notSpace); Literal "_/";
          Capture "consumerAddress" (Plus anyCharNotNL)].

(** [GROUP, TOPIC, PARTITION, CURRENT OFFSET, LOG END OFFSET, LAG, OWNER] *)
Definition header_0_9_0_1 : Regexp :=
  Literal "GROUP, TOPIC, PARTITION, CURRENT OFFSET, LOG END OFFSET, LAG, OWNER".

(** [[^,]+, (?P<topic>[a-zA-Z0-9\\._\\-]+), (?P<partitionId>\d+), (?P<currentOffset>\d+), \d+, (?P<lag>\d+), (?P<clientId>.+)_/(?P<consumerAddress>.+)] *)
Definition line_0_9_0_1 : Regexp :=
  concat [Plus notComma; Literal ", ";
          Capture "topic" (Plus topicClass); Literal ", ";
          Capture "partitionId" num; Literal ", ";
          Capture "currentOffset" num; Literal ", ";
          num; Literal ", ";
          Capture "lag" num; Literal ", ";
          Capture "clientId" (Plus anyCharNotNL); Literal "_/";
          Capture "consumerAddress" (Plus anyCharNotNL)].
End Patterns.

(** [mustBuildNewRegexpParser]: on an error [log.Fatal] ends the process and
    no parser exists, which is [None]. *)
Definition mustBuildNewRegexpParser (hdr ln : regexp.Regexp)
  : option regexpParser :=
  match newRegexpParser hdr ln with
  | Err _ => None
  | Ok parser => Some parser
  end.

Definition kafka0_10_2_1DescribeGroupParser : option regexpParser :=
  mustBuildNewRegexpParser header_0_10_2_1 line_0_10_2_1.

Definition kafka0_10_0_1DescribeGroupParser : option regexpParser :=
  mustBuildNewRegexpParser header_0_10_0_1 line_0_10_0_1.

Definition kafka0_9_0_1DescribeGroupParser : option regexpParser :=
  mustBuildNewRegexpParser header_0_9_0_1 line_0_9_0_1.

(** Modelled from the spec: the interface [DescribeGroupParser] is declared
    in a file of the package that is not under src/.  A value of the
    interface is its one capability, the method [Parse] from the output
    text to the records and an error. *)
Record DescribeGroupParser := {
  Parse : string -> outcome parsed
}.

(** A [*regexpParser] as a value of the interface. *)
Definition regexpParser_iface (p : regexpParser) : DescribeGroupParser :=
  {| Parse := regexpParser_Parse p |}.

Record DelegatingParser := {
  Parsers : list DescribeGroupParser
}.

(** The loop of [DelegatingParser.Parse], with its final return. *)
Fixpoint delegate (parsers : list DescribeGroupParser) (output : string)
  : outcome parsed :=
  match parsers with
  | [] => Returned ([], Some (errors_New "no parser could parse the output"))
  | parser :: parsers' =>
      r ← Parse parser output;
      match r with
      | (partitions, None) => Returned (partitions, None)
      | (_, Some _) => delegate parsers' output
      end
  end.

Definition DelegatingParser_Parse (p : DelegatingParser) (output : string)
  : outcome parsed :=
  delegate (Parsers p) output.

Definition DelegatingParser_iface (p : DelegatingParser) : DescribeGroupParser :=
  {| Parse := DelegatingParser_Parse p |}.

(** [DefaultParser()], which exists once the three package variables are
    initialised. *)
Definition DefaultParser : option DescribeGroupParser :=
  p09 ← kafka0_9_0_1DescribeGroupParser;
  p0100 ← kafka0_10_0_1DescribeGroupParser;
  p0102 ← kafka0_10_2_1DescribeGroupParser;
  Some (DelegatingParser_iface
          {| Parsers := [regexpParser_iface p09;
                         regexpParser_iface p0100;
                         regexpParser_iface p0102] |}).

(** ** Definitions used to state the properties *)

(** The parser that [newRegexpParser] builds when no required field is
    missing. *)
Definition initialised (hdr ln : regexp.Regexp) : regexpParser :=
  {| header := hdr; line := ln;
     indexByName := indexNames 0 (regexp.SubexpNames ln) ∅ |}.

(** [p] is the value of one of the three package variables. *)
Definition builtin (p : regexpParser) : Prop :=
  kafka0_9_0_1DescribeGroupParser = Some p \/
  kafka0_10_0_1DescribeGroupParser = Some p \/
  kafka0_10_2_1DescribeGroupParser = Some p.

(** A parser rejects [output]: it returns with an error. *)
Definition rejects (q : DescribeGroupParser) (output : string) : Prop :=
  exists partitions e, Parse q output = Returned (partitions, Some e).

Definition nl : string := String strings.newline EmptyString.

(** The declarative reading of a pattern, against which the backtracking
    search is checked. *)

Fixpoint allIn (cc : regexp.charClass) (w : string) : bool :=
  match w with
  | EmptyString => true
  | String c w' => regexp.classMatches cc c && allIn cc w'
  end.

(** [lang re w]: the text [w] belongs to the language of [re]. *)
Fixpoint lang (re : regexp.Regexp) (w : string) : Prop :=
  match re with
  | regexp.Literal lit => w = lit
  | regexp.CharClass cc =>
      exists c, w = String c EmptyString /\ regexp.classMatches cc c = true
  | regexp.Plus cc => w <> EmptyString /\ allIn cc w = true
  | regexp.Concat r1 r2 =>
      exists w1 w2, w = w1 +:+ w2 /\ lang r1 w1 /\ lang r2 w2
  | regexp.Capture _ r => lang r w
  end.

(** [sem re idx w cap cap']: [re], whose first group has number [idx],
    matches exactly the text [w] and turns the captures [cap] into
    [cap']. *)
Fixpoint sem (re : regexp.Regexp) (idx : nat) (w : string)
    (cap cap' : list string) : Prop :=
  match re with
  | regexp.Concat r1 r2 =>
      exists w1 w2 cap1,
        w = w1 +:+ w2 /\ sem r1 idx w1 cap cap1 /\
        sem r2 (idx + regexp.NumSubexp r1)%nat w2 cap1 cap'
  | regexp.Capture _ r =>
      exists cap1, sem r (S idx) w cap cap1 /\ cap' = <[idx := w]> cap1
  | _ => lang re w /\ cap' = cap
  end.

(** [groupBody re idx j]: the pattern inside group number [j] of [re]. *)
Fixpoint groupBody (re : regexp.Regexp) (idx j : nat) : option regexp.Regexp :=
  match re with
  | regexp.Concat r1 r2 =>
      if decide (j < idx + regexp.NumSubexp r1)%nat then groupBody r1 idx j
      else groupBody r2 (idx + regexp.NumSubexp r1)%nat j
  | regexp.Capture _ r =>
      if decide (j = idx) then Some r else groupBody r (S idx) j
  | _ => None
  end.

(** The value of a text of decimal digits, read after the value [n]. *)
Fixpoint decimalFrom (w : string) (n : Z) : Z :=
  match w with
  | EmptyString => n
  | String c w' => decimalFrom w' (n * 10 + (Z.of_N (N_of_ascii c) - 48))
  end.

Definition decimal (w : string) : Z := decimalFrom w 0.

(** The output of Kafka 0.10.2.1 used in the examples. *)
Definition header_text_0_10_2_1 : string :=
  "TOPIC PARTITION CURRENT-OFFSET LOG-END-OFFSET LAG CONSUMER-ID HOST CLIENT-ID".
Definition detail_text_0_10_2_1 : string :=
  "orders 0 105 110 5 consumer-1-abc /10.0.0.5 app-client-1".

(** The three groups the record invariant depends on have these
    patterns: one or more topic characters, one or more digits. *)
Definition fieldShapes (p : regexpParser) : Prop :=
  groupBody (line p) 1 (mapIndex (indexByName p) "topic") =
    Some (regexp.Plus topicClass) /\
  groupBody (line p) 1 (mapIndex (indexByName p) "currentOffset") =
    Some (regexp.Plus regexp.digit) /\
  groupBody (line p) 1 (mapIndex (indexByName p) "lag") =
    Some (regexp.Plus regexp.digit).

(** [numericField text v]: the field value [v] is the base-10 value of the
    captured [text], accepted by [strconv.ParseInt], or it is the sentinel
    -1 and the conversion of [text] failed. *)
Definition numericField (text : string) (v : Z) : Prop :=
  (strconv.ParseInt text = (v, None) /\ v = decimal text /\ 0 <= v < 2 ^ 63) \/
  (v = -1 /\ exists n e, strconv.ParseInt text = (n, Some e)).

(** [recordOfLine p text rec]: [rec] is the record of the matching detail
    line [text]. *)
Definition recordOfLine (p : regexpParser) (text : string) (rec : PartitionInfo)
  : Prop :=
  let matches := regexp.FindStringSubmatch (line p) text in
  exists co lg,
    regexp.MatchString (line p) text = true /\
    matches !! mapIndex (indexByName p) "currentOffset" = Some co /\
    matches !! mapIndex (indexByName p) "lag" = Some lg /\
    matches !! mapIndex (indexByName p) "topic" = Some (Topic rec) /\
    Topic rec <> EmptyString /\
    numericField co (CurrentOffset rec) /\
    numericField lg (Lag rec).

(** A describe-group output of two detail lines, the second with a current
    offset too large for 64 bits, and its two records. *)
Definition overflow_text_0_10_2_1 : string :=
  "orders 1 99999999999999999999 110 7 consumer-2-def /10.0.0.6 app-client-2".

Definition example_output : string :=
  header_text_0_10_2_1 +:+ nl +:+ detail_text_0_10_2_1 +:+ nl +:+
  overflow_text_0_10_2_1.

Definition example_records : list PartitionInfo :=
  [{| Topic := "orders"; PartitionID := "0"; CurrentOffset := 105; Lag := 5;
      ClientID := "app-client-1"; ConsumerAddress := "/10.0.0.5" |};
   {| Topic := "orders"; PartitionID := "1"; CurrentOffset := -1; Lag := 7;
      ClientID := "app-client-2"; ConsumerAddress := "/10.0.0.6" |}].

(** The integer an optional sign followed by one or more decimal digits
    denotes; [None] for any other text. *)
Definition signedDecimal (text : string) : option Z :=
  match text with
  | EmptyString => None
  | String c s1 =>
      let '(neg, s) :=
        if Ascii.eqb c "+" then (false, s1)
        else if Ascii.eqb c "-" then (true, s1)
        else (false, text) in
      match s with
      | EmptyString => None
      | String _ _ =>
          if allIn regexp.digit s
          then Some (if neg then - decimal s else decimal s)
          else None
      end
  end.

(** [lineRecord p text]: the record [parseLine] fills from the submatches
    of a detail line; a submatch that does not exist reads as the empty
    text. *)
Definition lineRecord (p : regexpParser) (text : string) : PartitionInfo :=
  let matches := regexp.FindStringSubmatch (line p) text in
  let field name :=
    default EmptyString (matches !! mapIndex (indexByName p) name) in
  {| Topic := field "topic";
     PartitionID := field "partitionId";
     CurrentOffset := (parseLong (field "currentOffset")).1;
     Lag := (parseLong (field "lag")).1;
     ClientID := field "clientId";
     ConsumerAddress := field "consumerAddress" |}.

Definition incorrectHeader : parsed :=
  ([], Some (errors_New "incorrect header")).

Definition noParser : parsed :=
  ([], Some (errors_New "no parser could parse the output")).

(** [decides re idx w rest cap cap']: on the input [w] followed by [rest],
    the first match the backtracking search finds for [re] is the text [w],
    with the captures [cap']: any continuation that accepts this match
    receives it. *)
Definition decides (re : regexp.Regexp) (idx : nat) (w rest : string)
    (cap cap' : list string) : Prop :=
  forall (A : Type) (k : string -> list string -> option A),
    is_Some (k rest cap') ->
    regexp.backtrack re idx (w +:+ rest) cap k = k rest cap'.

(** [stops cc rest]: a run of bytes of the class [cc] cannot go on into
    [rest]. *)
Definition stops (cc : regexp.charClass) (rest : string) : Prop :=
  match rest with
  | EmptyString => True
  | String c _ => regexp.classMatches cc c = false
  end.

(** The eight columns of a detail line of Kafka 0.10.2.1, as texts. *)
Record row := {
  rTopic : string;
  rPartition : string;
  rOffset : string;
  rLogEnd : string;
  rLag : string;
  rConsumer : string;
  rHost : string;
  rClient : string
}.

(** The columns have the shape the line pattern asks for: topic
    characters, digits, and bytes that are not white space. *)
Definition wellFormedRow (r : row) : Prop :=
  lang (regexp.Plus topicClass) (rTopic r) /\
  lang (regexp.Plus regexp.digit) (rPartition r) /\
  lang (regexp.Plus regexp.digit) (rOffset r) /\
  lang (regexp.Plus regexp.digit) (rLogEnd r) /\
  lang (regexp.Plus regexp.digit) (rLag r) /\
  lang (regexp.Plus regexp.notSpace) (rConsumer r) /\
  lang (regexp.Plus regexp.notSpace) (rHost r) /\
  lang (regexp.Plus regexp.notSpace) (rClient r).

(** The detail line of a row; [sep i] is the white space after column
    [i]. *)
Definition render (sep : nat -> string) (r : row) : string :=
  rTopic r +:+ sep 0%nat +:+ rPartition r +:+ sep 1%nat +:+
  rOffset r +:+ sep 2%nat +:+ rLogEnd r +:+ sep 3%nat +:+
  rLag r +:+ sep 4%nat +:+ rConsumer r +:+ sep 5%nat +:+
  rHost r +:+ sep 6%nat +:+ rClient r.

(** The value of a column of digits as a record field: its decimal value
    when it fits 64 signed bits, the sentinel otherwise. *)
Definition int64OrSentinel (w : string) : Z :=
  if decide (decimal w < 2 ^ 63) then decimal w else -1.

Definition recordOfRow (r : row) : PartitionInfo :=
  {| Topic := rTopic r;
     PartitionID := rPartition r;
     CurrentOffset := int64OrSentinel (rOffset r);
     Lag := int64OrSentinel (rLag r);
     ClientID := rClient r;
     ConsumerAddress := rHost r |}.

(** The columns of a detail line of Kafka 0.9.0.1; the last column, the
    owner, is the client id, the two bytes [_/] and the address. *)
Record oldRow := {
  oGroup : string;
  oTopic : string;
  oPartition : string;
  oOffset : string;
  oLogEnd : string;
  oLag : string;
  oClient : string;
  oAddress : string
}.

(** The shape of the columns: a group without comma, topic characters,
    digits, and an owner on one line whose address part does not hold
    [_/] again (the client id may). *)
Definition wellFormedOldRow (r : oldRow) : Prop :=
  lang (regexp.Plus notComma) (oGroup r) /\
  lang (regexp.Plus topicClass) (oTopic r) /\
  lang (regexp.Plus regexp.digit) (oPartition r) /\
  lang (regexp.Plus regexp.digit) (oOffset r) /\
  lang (regexp.Plus regexp.digit) (oLogEnd r) /\
  lang (regexp.Plus regexp.digit) (oLag r) /\
  lang (regexp.Plus regexp.anyCharNotNL) (oClient r) /\
  lang (regexp.Plus regexp.anyCharNotNL) (oAddress r) /\
  strings.Contains (oAddress r) "_/" = false.

Definition renderOld (r : oldRow) : string :=
  oGroup r +:+ ", " +:+ oTopic r +:+ ", " +:+ oPartition r +:+ ", " +:+
  oOffset r +:+ ", " +:+ oLogEnd r +:+ ", " +:+ oLag r +:+ ", " +:+
  oClient r +:+ "_/" +:+ oAddress r.

Definition recordOfOldRow (r : oldRow) : PartitionInfo :=
  {| Topic := oTopic r;
     PartitionID := oPartition r;
     CurrentOffset := int64OrSentinel (oOffset r);
     Lag := int64OrSentinel (oLag r);
     ClientID := oClient r;
     ConsumerAddress := oAddress r |}.

(** * Properties *)

Section StringFacts.

Lemma HasPrefix_spec s p :
  strings.HasPrefix s p = true <-> exists post, s = p +:+ post.
Proof.
  revert s; induction p as [|a p IH]; intros s; simpl.
  - split; [intros _; by exists s | done].
  - destruct s as [|b s]; simpl.
    + split; [done | intros [post H]; discriminate].
    + rewrite andb_true_iff, Ascii.eqb_eq, IH. split.
      * intros [-> [post ->]]. by exists post.
      * intros [post H]. injection H as -> ->. eauto.
Qed.

Lemma Contains_spec s sub :
  strings.Contains s sub = true <-> exists pre post, s = pre +:+ sub +:+ post.
Proof.
  induction s as [|c s IH]; simpl; rewrite orb_true_iff, HasPrefix_spec.
  - split.
    + intros [[post H]|?]; [|done]. by exists EmptyString, post.
    + intros ([|? pre] & post & H); [left; by exists post | discriminate].
  - rewrite IH. split.
    + intros [[post H]|(pre & post & ->)].
      * by exists EmptyString, post.
      * by exists (String c pre), post.
    + intros ([|a pre] & post & H).
      * left. by exists post.
      * right. injection H as -> ->. by exists pre, post.
Qed.

Lemma Split_nonempty s sep : strings.Split s sep <> [].
Proof.
  destruct s as [|c s]; simpl; [done|].
  destruct (Ascii.eqb c sep); [done|]. by destruct (strings.Split s sep).
Qed.

Lemma Split_length s sep :
  length (strings.Split s sep) = S (strings.Count s sep).
Proof.
  induction s as [|c s IH]; simpl; [done|].
  destruct (Ascii.eqb c sep); simpl; [by rewrite IH|].
  destruct (strings.Split s sep); simpl in *; [done | lia].
Qed.

Lemma Join_Split s sep : strings.Join (strings.Split s sep) sep = s.
Proof.
  induction s as [|c s IH]; simpl; [done|].
  destruct (Ascii.eqb c sep) eqn:E.
  - apply Ascii.eqb_eq in E as ->.
    pose proof (Split_nonempty s sep).
    destruct (strings.Split s sep) as [|l ls] eqn:Hs; [done|].
    simpl in *. by rewrite IH.
  - pose proof (Split_nonempty s sep).
    destruct (strings.Split s sep) as [|l ls] eqn:Hs; [done|].
    simpl in *. destruct ls; simpl in *; by rewrite <- IH.
Qed.

Lemma Split_no_sep s sep l :
  l ∈ strings.Split s sep -> strings.Count l sep = 0%nat.
Proof.
  revert l; induction s as [|c s IH]; simpl; intros l.
  - by intros ->%list_elem_of_singleton.
  - destruct (Ascii.eqb c sep) eqn:E.
    + intros [->|?]%elem_of_cons; [done | auto].
    + pose proof (Split_nonempty s sep).
      destruct (strings.Split s sep) as [|l0 ls] eqn:Hs; [done|].
      intros [->|?]%elem_of_cons.
      * simpl. rewrite E. apply IH. by left.
      * apply IH. by right.
Qed.

Lemma collectGroups_filter lines :
  collectGroups lines = filter (fun l => l <> EmptyString) lines.
Proof.
  unfold collectGroups.
  enough (forall acc,
    fold_left (fun groups line =>
                 if decide (line <> EmptyString) then groups ++ [line] else groups)
              lines acc = acc ++ filter (fun l => l <> EmptyString) lines)
    as H by apply (H []).
  induction lines as [|l ls IH]; intros acc; simpl.
  - by rewrite app_nil_r.
  - rewrite IH, filter_cons. destruct (decide (l <> EmptyString)); [|done].
    by rewrite <- app_assoc.
Qed.

End StringFacts.


(** ** The backtracking search is sound *)

Section RegexpFacts.

Lemma app_cons c (s t : string) : String c s +:+ t = String c (s +:+ t).
Proof. reflexivity. Qed.

Lemma string_app_assoc (a b c : string) : (a +:+ b) +:+ c = a +:+ b +:+ c.
Proof.
  induction a as [|x a IH]; [done|]. by rewrite !app_cons, IH.
Qed.

Lemma string_length_app (a b : string) :
  String.length (a +:+ b) = (String.length a + String.length b)%nat.
Proof. induction a as [|x a IH]; [done|]. rewrite app_cons. simpl. by rewrite IH. Qed.

Lemma substring_prefix (w rest : string) :
  String.substring 0 (String.length w) (w +:+ rest) = w.
Proof.
  induction w as [|x w IH].
  - by destruct rest.
  - rewrite app_cons. simpl. by rewrite IH.
Qed.

Lemma consumed_app (w rest : string) : regexp.consumed (w +:+ rest) rest = w.
Proof.
  unfold regexp.consumed. rewrite string_length_app.
  replace (String.length w + String.length rest - String.length rest)%nat
    with (String.length w) by lia.
  apply substring_prefix.
Qed.

Lemma stripPrefix_spec (s lit rest : string) :
  regexp.stripPrefix s lit = Some rest <-> s = lit +:+ rest.
Proof.
  revert s; induction lit as [|a lit IH]; intros s; simpl.
  - split; [intros [= ->]; reflexivity | intros ->; reflexivity].
  - destruct s as [|b s]; [done|]. rewrite app_cons.
    destruct (Ascii.eqb a b) eqn:E.
    + apply Ascii.eqb_eq in E as ->. rewrite IH. split; congruence.
    + apply Ascii.eqb_neq in E. split; congruence.
Qed.

Lemma star_sound {A} cc s (k : string -> option A) r :
  regexp.star cc s k = Some r ->
  exists w rest, s = w +:+ rest /\ allIn cc w = true /\ k rest = Some r.
Proof.
  induction s as [|c s IH]; simpl.
  - intros H. by exists EmptyString, EmptyString.
  - destruct (regexp.classMatches cc c) eqn:Ec.
    + destruct (regexp.star cc s k) as [r'|] eqn:Es.
      * intros [= ->]. destruct (IH eq_refl) as (w & rest & -> & Hw & Hk).
        exists (String c w), rest. simpl. by rewrite Ec, Hw.
      * intros H. by exists EmptyString, (String c s).
    + intros H. by exists EmptyString, (String c s).
Qed.

Lemma plus_sound {A} cc s (k : string -> option A) r :
  regexp.plus cc s k = Some r ->
  exists w rest,
    s = w +:+ rest /\ lang (regexp.Plus cc) w /\ k rest = Some r.
Proof.
  destruct s as [|c s]; simpl; [done|].
  destruct (regexp.classMatches cc c) eqn:Ec; [|done].
  intros (w & rest & -> & Hw & Hk)%star_sound.
  exists (String c w), rest. simpl. by rewrite Ec, Hw.
Qed.

Lemma backtrack_sound {A} re idx s cap (k : string -> list string -> option A) r :
  regexp.backtrack re idx s cap k = Some r ->
  exists w rest cap',
    s = w +:+ rest /\ sem re idx w cap cap' /\ k rest cap' = Some r.
Proof.
  revert idx s cap k; induction re as [lit|cc|cc|r1 IH1 r2 IH2|name re IH];
    intros idx s cap k; simpl.
  - destruct (regexp.stripPrefix s lit) as [rest|] eqn:E; [|done].
    apply stripPrefix_spec in E as ->. intros Hk. by exists lit, rest, cap.
  - destruct s as [|c s]; [done|].
    destruct (regexp.classMatches cc c) eqn:Ec; [|done].
    intros Hk. exists (String c EmptyString), s, cap. split_and!; eauto.
  - intros (w & rest & -> & Hw & Hk)%plus_sound. by exists w, rest, cap.
  - intros (w1 & rest1 & cap1 & -> & H1 & Hk)%IH1.
    apply IH2 in Hk as (w2 & rest & cap' & -> & H2 & Hk).
    exists (w1 +:+ w2), rest, cap'. rewrite string_app_assoc.
    split_and!; [done| |done]. by exists w1, w2, cap1.
  - intros (w & rest & cap1 & -> & H1 & Hk)%IH.
    rewrite consumed_app in Hk.
    exists w, rest, (<[idx := w]> cap1). split_and!; [done| |done].
    by exists cap1.
Qed.

Lemma sem_length re idx w cap cap' :
  sem re idx w cap cap' -> length cap' = length cap.
Proof.
  revert idx w cap cap'; induction re as [lit|cc|cc|r1 IH1 r2 IH2|name re IH];
    intros idx w cap cap'; simpl; try (by intros [_ ->]).
  - intros (w1 & w2 & cap1 & _ & H1 & H2).
    rewrite (IH2 _ _ _ _ H2). by apply IH1 in H1.
  - intros (cap1 & H1 & ->). rewrite length_insert. by apply IH in H1.
Qed.

Lemma sem_frame re idx w cap cap' j :
  sem re idx w cap cap' ->
  (j < idx \/ idx + regexp.NumSubexp re <= j)%nat ->
  cap' !! j = cap !! j.
Proof.
  revert idx w cap cap'; induction re as [lit|cc|cc|r1 IH1 r2 IH2|name re IH];
    intros idx w cap cap'; simpl; try (by intros [_ ->]).
  - intros (w1 & w2 & cap1 & _ & H1 & H2) Hj.
    rewrite (IH2 _ _ _ _ H2) by lia. apply (IH1 _ _ _ _ H1). lia.
  - intros (cap1 & H1 & ->) Hj.
    rewrite list_lookup_insert_ne by lia. apply (IH _ _ _ _ H1). lia.
Qed.

Lemma sem_lang re idx w cap cap' : sem re idx w cap cap' -> lang re w.
Proof.
  revert idx w cap cap'; induction re as [lit|cc|cc|r1 IH1 r2 IH2|name re IH];
    intros idx w cap cap'; simpl; try (by intros [? _]).
  - intros (w1 & w2 & cap1 & -> & H1 & H2). exists w1, w2. eauto.
  - intros (cap1 & H1 & _). eauto.
Qed.

Lemma groupBody_range re idx j body :
  groupBody re idx j = Some body ->
  (idx <= j < idx + regexp.NumSubexp re)%nat.
Proof.
  revert idx; induction re as [lit|cc|cc|r1 IH1 r2 IH2|name re IH];
    intros idx; simpl; try done.
  - case_decide.
    + intros ?%IH1. lia.
    + intros ?%IH2. lia.
  - case_decide; [intros _; lia|]. intros ?%IH. lia.
Qed.

(** Every capture of a match belongs to the language of its group. *)
Lemma sem_group re idx w cap cap' j body :
  sem re idx w cap cap' ->
  (idx + regexp.NumSubexp re <= length cap)%nat ->
  groupBody re idx j = Some body ->
  exists wj, cap' !! j = Some wj /\ lang body wj.
Proof.
  revert idx w cap cap'; induction re as [lit|cc|cc|r1 IH1 r2 IH2|name re IH];
    intros idx w cap cap'; simpl; try done.
  - intros (w1 & w2 & cap1 & _ & H1 & H2) Hlen. case_decide as Hj.
    + intros Hb. destruct (IH1 _ _ _ _ H1 ltac:(lia) Hb) as (wj & Hwj & Hl).
      exists wj. split; [|done].
      rewrite (sem_frame _ _ _ _ _ j H2) by lia. done.
    + intros Hb. apply (IH2 _ _ _ _ H2); [|done].
      rewrite (sem_length _ _ _ _ _ H1). lia.
  - intros (cap1 & H1 & ->) Hlen. case_decide as Hj.
    + intros [= <-]. subst j. exists w. split; [|by eapply sem_lang].
      apply list_lookup_insert_eq. rewrite (sem_length _ _ _ _ _ H1). lia.
    + intros Hb. destruct (IH _ _ _ _ H1 ltac:(lia) Hb) as (wj & Hwj & Hl).
      exists wj. split; [|done]. by rewrite list_lookup_insert_ne.
Qed.

Lemma matchAt_sound re s caps :
  regexp.matchAt re s = Some caps ->
  exists w rest cap',
    s = w +:+ rest /\
    sem re 1 w (replicate (S (regexp.NumSubexp re)) EmptyString) cap' /\
    caps = <[0%nat := w]> cap'.
Proof.
  unfold regexp.matchAt.
  intros (w & rest & cap' & -> & Hsem & Hk)%backtrack_sound.
  rewrite consumed_app in Hk. injection Hk as <-. by exists w, rest, cap'.
Qed.

Lemma doExecute_sound re s caps :
  regexp.doExecute re s = Some caps ->
  exists pre w rest cap',
    s = pre +:+ w +:+ rest /\
    sem re 1 w (replicate (S (regexp.NumSubexp re)) EmptyString) cap' /\
    caps = <[0%nat := w]> cap'.
Proof.
  induction s as [|c s IH]; simpl.
  - destruct (regexp.matchAt re EmptyString) as [caps'|] eqn:E; [|done].
    intros [= ->]. apply matchAt_sound in E as (w & rest & cap' & ? & ? & ?).
    by exists EmptyString, w, rest, cap'.
  - destruct (regexp.matchAt re (String c s)) as [caps'|] eqn:E.
    + intros [= ->]. apply matchAt_sound in E as (w & rest & cap' & ? & ? & ?).
      by exists EmptyString, w, rest, cap'.
    + intros (pre & w & rest & cap' & -> & ? & ?)%IH.
      by exists (String c pre), w, rest, cap'.
Qed.

(** A successful search returns one text per group, and the whole match
    first. *)
Lemma doExecute_length re s caps :
  regexp.doExecute re s = Some caps ->
  length caps = S (regexp.NumSubexp re).
Proof.
  intros (pre & w & rest & cap' & _ & Hsem & ->)%doExecute_sound.
  rewrite length_insert, (sem_length _ _ _ _ _ Hsem). apply length_replicate.
Qed.

Lemma doExecute_group re s caps j body :
  regexp.doExecute re s = Some caps ->
  groupBody re 1 j = Some body ->
  exists wj, caps !! j = Some wj /\ lang body wj.
Proof.
  intros (pre & w & rest & cap' & _ & Hsem & ->)%doExecute_sound Hb.
  pose proof (groupBody_range _ _ _ _ Hb).
  destruct (sem_group _ _ _ _ _ _ _ Hsem ltac:(rewrite length_replicate; lia) Hb)
    as (wj & Hwj & Hl).
  exists wj. split; [|done]. by rewrite list_lookup_insert_ne by lia.
Qed.

(** The search is complete as well: it finds a match wherever the input
    has a piece in the language of the pattern. *)

Lemma star_complete {A} cc w rest (k : string -> option A) :
  allIn cc w = true -> is_Some (k rest) ->
  is_Some (regexp.star cc (w +:+ rest) k).
Proof.
  intros Hw Hk. induction w as [|c w IH].
  - change (EmptyString +:+ rest) with rest.
    destruct rest as [|c rest]; simpl; [done|].
    destruct (regexp.classMatches cc c); [|done].
    by destruct (regexp.star cc rest k).
  - rewrite app_cons. simpl in *.
    apply andb_true_iff in Hw as [-> Hw].
    destruct (regexp.star cc (w +:+ rest) k) eqn:E; [done|].
    by destruct (IH Hw) as [? ?].
Qed.

Lemma lang_sem re : forall idx w cap,
  lang re w -> exists cap', sem re idx w cap cap'.
Proof.
  induction re as [lit|cc|cc|r1 IH1 r2 IH2|name re IH]; intros idx w cap; simpl;
    try (by intros H; exists cap).
  - intros (w1 & w2 & -> & H1 & H2).
    destruct (IH1 idx w1 cap H1) as [cap1 Hs1].
    destruct (IH2 (idx + regexp.NumSubexp r1)%nat w2 cap1 H2) as [cap' Hs2].
    exists cap', w1, w2, cap1. done.
  - intros H. destruct (IH (S idx) w cap H) as [cap1 Hs].
    exists (<[idx := w]> cap1), cap1. done.
Qed.

Lemma backtrack_complete {A} re :
  forall idx w rest cap cap' (k : string -> list string -> option A),
  sem re idx w cap cap' -> is_Some (k rest cap') ->
  is_Some (regexp.backtrack re idx (w +:+ rest) cap k).
Proof.
  induction re as [lit|cc|cc|r1 IH1 r2 IH2|name re IH];
    intros idx w rest cap cap' k; simpl.
  - intros [-> ->] Hk.
    by rewrite (proj2 (stripPrefix_spec (lit +:+ rest) lit rest) eq_refl).
  - intros [(c & -> & Hc) ->] Hk. rewrite app_cons. by rewrite Hc.
  - intros [[Hne Hw] ->] Hk. destruct w as [|c w]; [done|].
    rewrite app_cons. simpl in *. apply andb_true_iff in Hw as [-> Hw].
    by apply star_complete.
  - intros (w1 & w2 & cap1 & -> & H1 & H2) Hk. rewrite string_app_assoc.
    eapply IH1; [exact H1|]. by eapply IH2.
  - intros (cap1 & H1 & ->) Hk. eapply IH; [exact H1|].
    by rewrite consumed_app.
Qed.

Lemma doExecute_complete re pre w rest :
  lang re w -> is_Some (regexp.doExecute re (pre +:+ w +:+ rest)).
Proof.
  intros Hw.
  assert (is_Some (regexp.matchAt re (w +:+ rest))) as Hhere.
  { destruct (lang_sem re 1 w
                (replicate (S (regexp.NumSubexp re)) EmptyString) Hw) as [cap' Hs].
    unfold regexp.matchAt. by eapply backtrack_complete. }
  induction pre as [|c pre IH].
  - change (EmptyString +:+ w +:+ rest) with (w +:+ rest).
    destruct Hhere as [caps E].
    destruct (w +:+ rest); simpl; by rewrite E.
  - rewrite app_cons. simpl.
    by destruct (regexp.matchAt re (String c (pre +:+ w +:+ rest))).
Qed.

(** [MatchString] holds exactly when a piece of the input belongs to the
    language of the pattern; [FindStringSubmatch] is nil exactly
    otherwise. *)
Lemma MatchString_spec re s :
  regexp.MatchString re s = true <->
  exists pre w rest, s = pre +:+ w +:+ rest /\ lang re w.
Proof.
  unfold regexp.MatchString. rewrite bool_decide_eq_true. split.
  - intros [caps (pre & w & rest & cap' & -> & Hs & _)%doExecute_sound].
    exists pre, w, rest. split; [done | by eapply sem_lang].
  - intros (pre & w & rest & -> & Hw). by apply doExecute_complete.
Qed.

Lemma FindStringSubmatch_nil re s :
  regexp.FindStringSubmatch re s = [] <-> regexp.MatchString re s = false.
Proof.
  unfold regexp.FindStringSubmatch, regexp.MatchString.
  rewrite bool_decide_eq_false.
  destruct (regexp.doExecute re s) as [caps|] eqn:E; simpl.
  - apply doExecute_length in E. split; [|intros []; eauto].
    intros ->. done.
  - split; [intros _ [? ?]; done | done].
Qed.

Lemma groupNames_length re : length (regexp.groupNames re) = regexp.NumSubexp re.
Proof.
  induction re as [lit|cc|cc|r1 IH1 r2 IH2|name re IH]; simpl; try done.
  - by rewrite length_app, IH1, IH2.
  - by rewrite IH.
Qed.

End RegexpFacts.

(** ** parseGroups *)

Section ParseGroups.

Lemma append_empty_r (s : string) : s +:+ EmptyString = s.
Proof.
  induction s as [|c s IH]; [done|].
  change (String c (s +:+ EmptyString) = String c s). by rewrite IH.
Qed.

(** C6.  An output that holds the text [java.lang.RuntimeException] at any
    place makes [parseGroups] fail at once: no group is returned, and the
    error is the runtime-error message followed by the whole raw output,
    whatever the other lines look like. *)
Theorem parseGroups_runtime_fault (output pre post : string) :
  output = pre +:+ "java.lang.RuntimeException" +:+ post ->
  parseGroups output =
    ([], Some (errorString
                 ("Got runtime error when executing script. Output: " +:+ output))).
Proof.
  intros Hout. unfold parseGroups.
  assert (strings.Contains output runtimeFault = true) as ->.
  { apply Contains_spec. by exists pre, post. }
  unfold fmt_Errorf. by rewrite append_empty_r.
Qed.

Lemma parseGroups_runtime_fault_witness :
  parseGroups
    ("group-a" +:+ String strings.newline
       "Error: java.lang.RuntimeException: Request GROUP_COORDINATOR failed"
     +:+ String strings.newline "group-b") =
  ([], Some (errorString
     ("Got runtime error when executing script. Output: " +:+
      "group-a" +:+ String strings.newline
        "Error: java.lang.RuntimeException: Request GROUP_COORDINATOR failed"
      +:+ String strings.newline "group-b"))).
Proof.
  apply (parseGroups_runtime_fault _
           ("group-a" +:+ String strings.newline "Error: ")
           (": Request GROUP_COORDINATOR failed"
            +:+ String strings.newline "group-b")).
  reflexivity.
Defined.

(** C7.  An output without the runtime-fault text is parsed with no error.
    Its lines are the pieces between the line terminators (joined by the
    terminator they give the output back, and none holds a terminator);
    the groups returned are exactly the non-empty ones among them,
    verbatim and in the order of the input, so their count is the number
    of non-empty lines. *)
Theorem parseGroups_nonempty_lines (output : string) :
  (forall pre post, output <> pre +:+ "java.lang.RuntimeException" +:+ post) ->
  let lines := strings.Split output strings.newline in
  strings.Join lines strings.newline = output /\
  (forall l, l ∈ lines -> strings.Count l strings.newline = 0%nat) /\
  parseGroups output = (filter (fun l => l <> EmptyString) lines, None) /\
  length (parseGroups output).1 =
    length (filter (fun l => l <> EmptyString) lines).
Proof.
  intros Hno lines.
  assert (parseGroups output = (filter (fun l => l <> EmptyString) lines, None))
    as Hpg.
  { unfold parseGroups.
    destruct (strings.Contains output runtimeFault) eqn:E.
    - apply Contains_spec in E as (pre & post & E). by destruct (Hno pre post).
    - by rewrite collectGroups_filter. }
  split_and!; [apply Join_Split | apply Split_no_sep | done | by rewrite Hpg].
Qed.

Lemma parseGroups_nonempty_lines_witness :
  parseGroups
    ("group-a" +:+ String strings.newline (String strings.newline "group-b")
     +:+ String strings.newline EmptyString) =
  (["group-a"; "group-b"], None).
Proof.
  refine (proj1 (proj2 (proj2 (parseGroups_nonempty_lines _ _)))).
  intros pre post H.
  assert (strings.Contains
            ("group-a" +:+ String strings.newline (String strings.newline "group-b")
             +:+ String strings.newline EmptyString) runtimeFault = true) as C
    by (apply Contains_spec; by exists pre, post).
  vm_compute in C. discriminate C.
Defined.

End ParseGroups.


(** ** regexpParser and DelegatingParser: control flow *)

Section ControlFlow.

Lemma sliceIndex_nil {A} (i : nat) : sliceIndex (@nil A) i = Panicked.
Proof. done. Qed.

Lemma parseLine_unmatched (p : regexpParser) (ln : string) :
  regexp.FindStringSubmatch (line p) ln = [] -> parseLine p ln = Panicked.
Proof. intros H. unfold parseLine. by rewrite H. Qed.

Lemma parseLine_nil_error (p : regexpParser) (ln : string) rec err :
  parseLine p ln = Returned (rec, err) -> err = None.
Proof.
  unfold parseLine, mbind, outcome_bind, mret, outcome_ret.
  repeat (destruct (sliceIndex _ _); [|done];
          try match goal with |- context [parseLong ?x] => destruct (parseLong x) end).
  congruence.
Qed.

Lemma parseLines_nil_error (p : regexpParser) dataLines acc partitions err :
  parseLines p dataLines acc = Returned (partitions, err) -> err = None.
Proof.
  revert acc; induction dataLines as [|ln ds IH]; intros acc; simpl.
  - congruence.
  - destruct (parseLine p ln) as [[rec [e|]]|] eqn:E; simpl; [|eauto|done].
    by apply parseLine_nil_error in E.
Qed.

Lemma parseLines_unmatched (p : regexpParser) dataLines acc ln :
  ln ∈ dataLines ->
  regexp.FindStringSubmatch (line p) ln = [] ->
  parseLines p dataLines acc = Panicked.
Proof.
  intros Hin Hno. revert acc.
  induction dataLines as [|l ds IH]; intros acc; [by apply elem_of_nil in Hin|].
  simpl. apply elem_of_cons in Hin as [<-|Hin].
  - by rewrite parseLine_unmatched.
  - destruct (parseLine p l) as [[rec [e|]]|] eqn:E; simpl; [|auto|done].
    by apply parseLine_nil_error in E.
Qed.

(** Whenever the header matches, one data line without a match makes
    [Parse] panic: [parseLine] indexes the nil slice of submatches. *)
Lemma Parse_unmatched_line_panics (p : regexpParser) output headerLine dataLines ln :
  strings.Split output strings.newline = headerLine :: dataLines ->
  regexp.MatchString (header p) headerLine = true ->
  ln ∈ dataLines ->
  regexp.FindStringSubmatch (line p) ln = [] ->
  regexpParser_Parse p output = Panicked.
Proof.
  intros Hs Hh Hin Hno. unfold regexpParser_Parse. rewrite Hs, Hh. simpl.
  by eapply parseLines_unmatched.
Qed.

Lemma builtin_0_9_0_1 :
  kafka0_9_0_1DescribeGroupParser = Some (initialised header_0_9_0_1 line_0_9_0_1).
Proof. vm_compute. reflexivity. Qed.

Lemma builtin_0_10_0_1 :
  kafka0_10_0_1DescribeGroupParser = Some (initialised header_0_10_0_1 line_0_10_0_1).
Proof. vm_compute. reflexivity. Qed.

Lemma builtin_0_10_2_1 :
  kafka0_10_2_1DescribeGroupParser = Some (initialised header_0_10_2_1 line_0_10_2_1).
Proof. vm_compute. reflexivity. Qed.

Lemma builtin_cases (p : regexpParser) :
  builtin p ->
  p = initialised header_0_9_0_1 line_0_9_0_1 \/
  p = initialised header_0_10_0_1 line_0_10_0_1 \/
  p = initialised header_0_10_2_1 line_0_10_2_1.
Proof.
  unfold builtin.
  rewrite builtin_0_9_0_1, builtin_0_10_0_1, builtin_0_10_2_1.
  intros [H|[H|H]]; injection H as <-; auto.
Qed.

Lemma Parse_no_empty_output_error (p : regexpParser) (output : string) partitions :
  regexpParser_Parse p output <>
    Returned (partitions, Some (errors_New "empty output")).
Proof.
  unfold regexpParser_Parse.
  pose proof (Split_nonempty output strings.newline) as Hne.
  destruct (strings.Split output strings.newline) as [|h ds]; [done|].
  destruct (negb _); [discriminate|].
  intros H. by apply parseLines_nil_error in H.
Qed.

(** The only error [Parse] returns is the one of the header check. *)
Lemma Parse_error_is_header (p : regexpParser) (output : string) partitions e :
  regexpParser_Parse p output = Returned (partitions, Some e) ->
  partitions = [] /\ e = errors_New "incorrect header".
Proof.
  unfold regexpParser_Parse.
  pose proof (Split_nonempty output strings.newline) as Hne.
  destruct (strings.Split output strings.newline) as [|h ds]; [done|].
  destruct (negb _); [by intros [= <- <-]|].
  intros H. by apply parseLines_nil_error in H.
Qed.

Lemma Parse_empty_string (p : regexpParser) :
  regexp.MatchString (header p) EmptyString = false ->
  regexpParser_Parse p EmptyString =
    Returned ([], Some (errors_New "incorrect header")).
Proof. intros H. unfold regexpParser_Parse. simpl. by rewrite H. Qed.

(** C10.  Splitting any input on the line terminator gives a first line
    and the (possibly empty) list of the others, so [Parse] never returns
    the empty-output error.  The empty input has the empty line as its
    only line; it is the header candidate, and a parser whose header
    pattern does not match it, as every built-in parser, returns the
    incorrect-header error. *)
Theorem Parse_never_empty_output (p : regexpParser) (output : string) :
  (exists headerLine dataLines,
     strings.Split output strings.newline = headerLine :: dataLines) /\
  (forall partitions,
     regexpParser_Parse p output <>
       Returned (partitions, Some (errors_New "empty output"))) /\
  strings.Split EmptyString strings.newline = [EmptyString] /\
  (regexp.MatchString (header p) EmptyString = false ->
   regexpParser_Parse p EmptyString =
     Returned ([], Some (errors_New "incorrect header"))) /\
  (builtin p ->
   regexpParser_Parse p EmptyString =
     Returned ([], Some (errors_New "incorrect header"))).
Proof.
  split_and!.
  - pose proof (Split_nonempty output strings.newline).
    destruct (strings.Split output strings.newline) as [|h ds]; [done|eauto].
  - intros partitions. apply Parse_no_empty_output_error.
  - done.
  - apply Parse_empty_string.
  - intros [->|[->| ->]]%builtin_cases; by vm_compute.
Qed.

Lemma Parse_never_empty_output_witness :
  regexpParser_Parse (initialised header_0_10_0_1 line_0_10_0_1) EmptyString =
    Returned ([], Some (errors_New "incorrect header")) /\
  regexpParser_Parse (initialised header_0_10_0_1 line_0_10_0_1) EmptyString <>
    Returned ([], Some (errors_New "empty output")).
Proof.
  pose proof (Parse_never_empty_output
                (initialised header_0_10_0_1 line_0_10_0_1) EmptyString)
    as (_ & Hne & _ & _ & Hb).
  split; [apply Hb | apply Hne].
  right; left. vm_compute. reflexivity.
Defined.

(** C9 (the code departs from the specification).  On the empty output,
    the one text with no line in it, each built-in parser returns the
    incorrect-header error and not the empty-output error: the test
    [len(lines) == 0] of [Parse] can never hold. *)
Theorem Parse_empty_output_is_header_error :
  (fun o : option regexpParser =>
     p ← o; Some (regexpParser_Parse p EmptyString)) <$>
    [kafka0_9_0_1DescribeGroupParser; kafka0_10_0_1DescribeGroupParser;
     kafka0_10_2_1DescribeGroupParser] =
  replicate 3 (Some (Returned ([], Some (errors_New "incorrect header")))).
Proof. vm_compute. reflexivity. Qed.

(** C1 (the code departs from the specification).  The header of Kafka
    0.10.2.1 followed by a line that does not match the line pattern, here
    the empty line that a final line terminator leaves, makes [parseLine]
    index the nil slice of submatches: [Parse] panics, for the format's
    own parser and for the default parser, and returns no error value. *)
Theorem Parse_unmatched_line_panics_example :
  let output := header_text_0_10_2_1 +:+ nl +:+ detail_text_0_10_2_1 +:+ nl in
  strings.Split output strings.newline =
    [header_text_0_10_2_1; detail_text_0_10_2_1; EmptyString] /\
  regexp.MatchString header_0_10_2_1 header_text_0_10_2_1 = true /\
  regexp.FindStringSubmatch line_0_10_2_1 EmptyString = [] /\
  (p ← kafka0_10_2_1DescribeGroupParser; Some (regexpParser_Parse p output)) =
    Some Panicked /\
  (p ← DefaultParser; Some (Parse p output)) = Some Panicked.
Proof. vm_compute. done. Qed.

(** C5.  The default parser, on the header of Kafka 0.10.2.1 followed by
    the one detail line of the example, returns no error and exactly one
    record, with the six fields of the example. *)
Theorem DefaultParser_example :
  (p ← DefaultParser;
   Some (Parse p
     ("TOPIC PARTITION CURRENT-OFFSET LOG-END-OFFSET LAG CONSUMER-ID HOST CLIENT-ID"
      +:+ nl +:+
      "orders 0 105 110 5 consumer-1-abc /10.0.0.5 app-client-1"))) =
  Some (Returned ([{| Topic := "orders";
                      PartitionID := "0";
                      CurrentOffset := 105;
                      Lag := 5;
                      ClientID := "app-client-1";
                      ConsumerAddress := "/10.0.0.5" |}], None)).
Proof. vm_compute. reflexivity. Qed.

Lemma delegate_first_success before parser after output partitions :
  Forall (fun q => rejects q output) before ->
  Parse parser output = Returned (partitions, None) ->
  delegate (before ++ parser :: after) output = Returned (partitions, None).
Proof.
  intros Hb Hp. induction Hb as [|q before (ps & e & Hq) _ IH]; simpl.
  - by rewrite Hp.
  - by rewrite Hq.
Qed.

Lemma delegate_all_reject parsers output :
  Forall (fun q => rejects q output) parsers ->
  delegate parsers output =
    Returned ([], Some (errors_New "no parser could parse the output")).
Proof.
  induction 1 as [|q parsers (ps & e & Hq) _ IH]; simpl; [done|].
  by rewrite Hq.
Qed.

(** C3.  [DelegatingParser.Parse] calls its parsers in list order on the
    same output.  When the parsers before one have all returned an error
    and that one returns records without error, these records are the
    result, whatever parsers follow in the list: none of them is run (the
    statement holds even for followers that would panic).  When every
    parser returns an error, the result is the one error "no parser could
    parse the output" with the nil slice of records. *)
Theorem DelegatingParser_first_success (p : DelegatingParser) (output : string) :
  (forall before parser after partitions,
     Parsers p = before ++ parser :: after ->
     Forall (fun q => rejects q output) before ->
     Parse parser output = Returned (partitions, None) ->
     DelegatingParser_Parse p output = Returned (partitions, None)) /\
  (Forall (fun q => rejects q output) (Parsers p) ->
   DelegatingParser_Parse p output =
     Returned ([], Some (errors_New "no parser could parse the output"))).
Proof.
  unfold DelegatingParser_Parse. split.
  - intros before parser after partitions -> Hb Hp.
    by apply delegate_first_success.
  - apply delegate_all_reject.
Qed.

Lemma DelegatingParser_first_success_witness :
  let panicking := {| Parse := fun _ => Panicked |} in
  let p := {| Parsers :=
                [regexpParser_iface (initialised header_0_9_0_1 line_0_9_0_1);
                 regexpParser_iface (initialised header_0_10_2_1 line_0_10_2_1);
                 panicking] |} in
  DelegatingParser_Parse p (header_text_0_10_2_1 +:+ nl +:+ detail_text_0_10_2_1) =
    Returned ([{| Topic := "orders";
                  PartitionID := "0";
                  CurrentOffset := 105;
                  Lag := 5;
                  ClientID := "app-client-1";
                  ConsumerAddress := "/10.0.0.5" |}], None) /\
  DelegatingParser_Parse
    {| Parsers :=
         [regexpParser_iface (initialised header_0_9_0_1 line_0_9_0_1);
          regexpParser_iface (initialised header_0_10_2_1 line_0_10_2_1)] |}
    "no header here" =
    Returned ([], Some (errors_New "no parser could parse the output")).
Proof.
  intros panicking p. split.
  - apply (proj1 (DelegatingParser_first_success p _)
             [regexpParser_iface (initialised header_0_9_0_1 line_0_9_0_1)]
             (regexpParser_iface (initialised header_0_10_2_1 line_0_10_2_1))
             [panicking]).
    + reflexivity.
    + constructor; [|constructor].
      exists [], (errors_New "incorrect header"). vm_compute. reflexivity.
    + vm_compute. reflexivity.
  - apply (proj2 (DelegatingParser_first_success _ _)).
    repeat constructor;
      exists [], (errors_New "incorrect header"); vm_compute; reflexivity.
Defined.

End ControlFlow.

(** ** newRegexpParser *)

Section Construction.

Lemma indexNames_lookup names : forall i (m : gmap string nat) k j,
  indexNames i names m !! k = Some j ->
  (k ∈ names /\ exists j', names !! j' = Some k /\ j = (i + j')%nat) \/
  ((k ∉ names) /\ m !! k = Some j).
Proof.
  induction names as [|n ns IH]; intros i m k j; simpl.
  - intros H. right. split; [apply not_elem_of_nil | done].
  - intros [(Hin & j' & Hj' & ->)|(Hnin & Hm)]%IH.
    + left. split; [by right|]. exists (S j'). split; [done | lia].
    + destruct (decide (n = k)) as [->|Hne].
      * rewrite lookup_insert_eq in Hm. injection Hm as <-.
        left. split; [by left|]. exists 0%nat. split; [done | lia].
      * rewrite lookup_insert_ne in Hm by done.
        right. split; [|done]. by intros [->|?]%elem_of_cons.
Qed.

Lemma indexNames_is_Some names : forall i (m : gmap string nat) k,
  is_Some (indexNames i names m !! k) <-> k ∈ names \/ is_Some (m !! k).
Proof.
  induction names as [|n ns IH]; intros i m k; simpl.
  - split; [by right | intros [?%elem_of_nil|?]; done].
  - rewrite IH, elem_of_cons. destruct (decide (n = k)) as [->|Hne].
    + rewrite lookup_insert_eq. split; [intros _; by left; left | by right].
    + rewrite lookup_insert_ne by done. split; [tauto|].
      intros [[?|?]|?]; [congruence | by left | by right].
Qed.

Lemma missingField_None (m : gmap string nat) fields :
  missingField m fields = None <-> Forall (fun f => is_Some (m !! f)) fields.
Proof.
  induction fields as [|f fs IH]; simpl.
  - split; [constructor | done].
  - rewrite Forall_cons. destruct (m !! f) as [i|].
    + rewrite IH. split; [eauto | tauto].
    + split; [done | intros [[? ?] _]; done].
Qed.

Lemma missingField_Some (m : gmap string nat) fields e :
  missingField m fields = Some e ->
  exists f, f ∈ fields /\ m !! f = None /\
            e = errorString ("line regexp missing '" +:+ f +:+ "' capturing group").
Proof.
  induction fields as [|f fs IH]; simpl; [done|].
  destruct (m !! f) as [i|] eqn:E.
  - intros (f' & ? & ? & ?)%IH. exists f'. split; [by right | done].
  - intros [= <-]. exists f. split; [by left | done].
Qed.

Lemma lookup_index_of_group ln k :
  k <> EmptyString ->
  is_Some (indexNames 0 (regexp.SubexpNames ln) ∅ !! k) <->
  k ∈ regexp.groupNames ln.
Proof.
  intros Hk. rewrite indexNames_is_Some. unfold regexp.SubexpNames.
  rewrite elem_of_cons, lookup_empty. split.
  - intros [[?|?]|[? ?]]; done.
  - intros ?. left. by right.
Qed.

Lemma requiredFields_named f : f ∈ requiredFields -> f <> EmptyString.
Proof.
  unfold requiredFields. rewrite !elem_of_cons, elem_of_nil.
  intros [->|[->|[->|[->|[->|[->|[]]]]]]]; done.
Qed.

Lemma newRegexpParser_Ok hdr ln p :
  newRegexpParser hdr ln = Ok p <->
  p = initialised hdr ln /\
  forall f, f ∈ requiredFields -> f ∈ regexp.groupNames ln.
Proof.
  unfold newRegexpParser, initialised.
  destruct (missingField _ requiredFields) as [e|] eqn:E.
  - split; [done|]. intros [_ Hall].
    apply missingField_Some in E as (f & Hf & Hnone & _).
    pose proof (proj2 (lookup_index_of_group ln f (requiredFields_named f Hf))
                      (Hall f Hf)) as [i Hi].
    congruence.
  - apply missingField_None in E. rewrite Forall_forall in E.
    split; [|by intros [-> _]]. intros [= <-]. split; [done|].
    intros f Hf. apply lookup_index_of_group; [by apply requiredFields_named | auto].
Qed.

Lemma mapIndex_bound ln name :
  (mapIndex (indexNames 0 (regexp.SubexpNames ln) ∅) name
   < S (regexp.NumSubexp ln))%nat.
Proof.
  unfold mapIndex.
  destruct (indexNames 0 (regexp.SubexpNames ln) ∅ !! name) as [j|] eqn:E;
    simpl; [|lia].
  apply indexNames_lookup in E as [(_ & j' & Hj' & ->)|(_ & E)].
  - apply lookup_lt_Some in Hj'. simpl in *. rewrite groupNames_length in Hj'. lia.
  - by rewrite lookup_empty in E.
Qed.

(** C4.  For every header and line pattern, [newRegexpParser] returns an
    error exactly when one of the six required field names is not the name
    of a capture group of the line pattern; the error is the result of the
    constructor itself and names a missing field.  When it returns a
    parser, the index of the parser maps each of the six names to the
    number of a group of that name, and parsing with it reports no missing
    field: the only error [Parse] then returns is the incorrect-header
    one.  The three built-in parsers are all constructed, and the index of
    each holds the six names. *)
Theorem newRegexpParser_fails_iff_field_missing :
  (forall hdr ln : regexp.Regexp,
     ((exists e, newRegexpParser hdr ln = Err e) <->
      (exists f, f ∈ requiredFields /\ f ∉ regexp.groupNames ln)) /\
     (forall e, newRegexpParser hdr ln = Err e ->
        exists f, f ∈ requiredFields /\ (f ∉ regexp.groupNames ln) /\
          e = errorString ("line regexp missing '" +:+ f +:+ "' capturing group")) /\
     (forall p, newRegexpParser hdr ln = Ok p ->
        header p = hdr /\ line p = ln /\
        (forall f, f ∈ requiredFields ->
           exists i, indexByName p !! f = Some i /\
                     regexp.SubexpNames ln !! i = Some f) /\
        (forall output partitions e,
           regexpParser_Parse p output = Returned (partitions, Some e) ->
           e = errors_New "incorrect header"))) /\
  Forall (fun built : option regexpParser =>
            exists p, built = Some p /\
              forall f, f ∈ requiredFields -> is_Some (indexByName p !! f))
         [kafka0_9_0_1DescribeGroupParser; kafka0_10_0_1DescribeGroupParser;
          kafka0_10_2_1DescribeGroupParser].
Proof.
  assert (forall hdr ln e, newRegexpParser hdr ln = Err e ->
            exists f, f ∈ requiredFields /\ (f ∉ regexp.groupNames ln) /\
              e = errorString ("line regexp missing '" +:+ f +:+ "' capturing group"))
    as Herr.
  { intros hdr ln e. unfold newRegexpParser.
    destruct (missingField _ requiredFields) as [e'|] eqn:E; [|done].
    intros [= <-]. apply missingField_Some in E as (f & Hf & Hnone & ->).
    exists f. split_and!; [done| |done].
    intros Hin%(lookup_index_of_group ln f (requiredFields_named f Hf)).
    rewrite Hnone in Hin. by destruct Hin. }
  assert (forall hdr ln p, newRegexpParser hdr ln = Ok p ->
            header p = hdr /\ line p = ln /\
            forall f, f ∈ requiredFields ->
              exists i, indexByName p !! f = Some i /\
                        regexp.SubexpNames ln !! i = Some f) as Hok.
  { intros hdr ln p [-> Hall]%newRegexpParser_Ok. split_and!; [done..|].
    intros f Hf. simpl.
    pose proof (proj2 (lookup_index_of_group ln f (requiredFields_named f Hf))
                      (Hall f Hf)) as [i Hi].
    exists i. split; [done|].
    apply indexNames_lookup in Hi as [(_ & j' & Hj' & ->)|(_ & Hi)]; [done|].
    by rewrite lookup_empty in Hi. }
  split.
  - intros hdr ln. split_and!; [|apply Herr|]; cycle 1.
    { intros p Hp. destruct (Hok hdr ln p Hp) as (? & ? & ?).
      split_and!; [done..|].
      intros output partitions e He. by apply Parse_error_is_header in He as [_ ->]. }
    split.
    + intros [e (f & ? & ? & _)%Herr]. eauto.
    + intros (f & Hf & Hnin).
      destruct (newRegexpParser hdr ln) as [p|e] eqn:E; [|eauto].
      apply newRegexpParser_Ok in E as [_ Hall]. by destruct Hnin; auto.
  - repeat constructor.
    + exists (initialised header_0_9_0_1 line_0_9_0_1).
      split; [apply builtin_0_9_0_1|]. intros f Hf.
      destruct (Hok header_0_9_0_1 line_0_9_0_1 _ eq_refl) as (_ & _ & H).
      destruct (H f Hf) as (i & Hi & _). exists i. exact Hi.
    + exists (initialised header_0_10_0_1 line_0_10_0_1).
      split; [apply builtin_0_10_0_1|]. intros f Hf.
      destruct (Hok header_0_10_0_1 line_0_10_0_1 _ eq_refl) as (_ & _ & H).
      destruct (H f Hf) as (i & Hi & _). exists i. exact Hi.
    + exists (initialised header_0_10_2_1 line_0_10_2_1).
      split; [apply builtin_0_10_2_1|]. intros f Hf.
      destruct (Hok header_0_10_2_1 line_0_10_2_1 _ eq_refl) as (_ & _ & H).
      destruct (H f Hf) as (i & Hi & _). exists i. exact Hi.
Qed.

Lemma newRegexpParser_fails_iff_field_missing_witness :
  exists e,
    newRegexpParser header_0_10_2_1
      (regexp.concat
         [regexp.Capture "topic" (regexp.Plus topicClass);
          regexp.Plus regexp.space;
          regexp.Capture "partitionId" (regexp.Plus regexp.digit);
          regexp.Plus regexp.space;
          regexp.Capture "currentOffset" (regexp.Plus regexp.digit);
          regexp.Plus regexp.space;
          regexp.Capture "clientId" (regexp.Plus regexp.notSpace);
          regexp.Plus regexp.space;
          regexp.Capture "consumerAddress" (regexp.Plus regexp.notSpace)]) =
    Err e.
Proof.
  apply (proj2 (proj1 (proj1 newRegexpParser_fails_iff_field_missing _ _))).
  exists "lag". split.
  - apply (bool_decide_unpack _). vm_compute. exact I.
  - apply (bool_decide_unpack _). vm_compute. exact I.
Defined.

End Construction.

(** ** parseLine and the records of Parse *)

Section Lines.

Lemma sliceIndex_Returned {A} (s : list A) i x :
  sliceIndex s i = Returned x <-> s !! i = Some x.
Proof. unfold sliceIndex. destruct (s !! i); split; congruence. Qed.

Lemma parseLong_value (text : string) :
  (parseLong text).1 =
    match strconv.ParseInt text with
    | (v, None) => v
    | (_, Some _) => -1
    end.
Proof. unfold parseLong. by destruct (strconv.ParseInt text) as [v [e|]]. Qed.

(** What [parseLine] has read when it returns. *)
Lemma parseLine_inv (p : regexpParser) (text : string) rec err :
  parseLine p text = Returned (rec, err) ->
  let matches := regexp.FindStringSubmatch (line p) text in
  exists co lg t pid cid ca,
    matches !! mapIndex (indexByName p) "currentOffset" = Some co /\
    matches !! mapIndex (indexByName p) "lag" = Some lg /\
    matches !! mapIndex (indexByName p) "topic" = Some t /\
    matches !! mapIndex (indexByName p) "partitionId" = Some pid /\
    matches !! mapIndex (indexByName p) "clientId" = Some cid /\
    matches !! mapIndex (indexByName p) "consumerAddress" = Some ca /\
    rec = {| Topic := t; PartitionID := pid;
             CurrentOffset := (parseLong co).1; Lag := (parseLong lg).1;
             ClientID := cid; ConsumerAddress := ca |} /\
    err = None.
Proof.
  unfold parseLine, mbind, outcome_bind, mret, outcome_ret. intros H.
  set (matches := regexp.FindStringSubmatch (line p) text) in *.
  destruct (sliceIndex matches (mapIndex _ "currentOffset")) as [co|] eqn:E1;
    [|done].
  destruct (parseLong co) as [v1 e1] eqn:P1.
  destruct (sliceIndex matches (mapIndex _ "lag")) as [lg|] eqn:E2; [|done].
  destruct (parseLong lg) as [v2 e2] eqn:P2.
  destruct (sliceIndex matches (mapIndex _ "topic")) as [t|] eqn:E3; [|done].
  destruct (sliceIndex matches (mapIndex _ "partitionId")) as [pid|] eqn:E4;
    [|done].
  destruct (sliceIndex matches (mapIndex _ "clientId")) as [cid|] eqn:E5;
    [|done].
  destruct (sliceIndex matches (mapIndex _ "consumerAddress")) as [ca|] eqn:E6;
    [|done].
  apply sliceIndex_Returned in E1, E2, E3, E4, E5, E6.
  injection H as <- <-. exists co, lg, t, pid, cid, ca.
  rewrite P1, P2. by split_and!.
Qed.

Lemma parseLine_matched (p : regexpParser) (text : string) co lg t pid cid ca :
  let matches := regexp.FindStringSubmatch (line p) text in
  matches !! mapIndex (indexByName p) "currentOffset" = Some co ->
  matches !! mapIndex (indexByName p) "lag" = Some lg ->
  matches !! mapIndex (indexByName p) "topic" = Some t ->
  matches !! mapIndex (indexByName p) "partitionId" = Some pid ->
  matches !! mapIndex (indexByName p) "clientId" = Some cid ->
  matches !! mapIndex (indexByName p) "consumerAddress" = Some ca ->
  parseLine p text =
    Returned ({| Topic := t; PartitionID := pid;
                 CurrentOffset := (parseLong co).1; Lag := (parseLong lg).1;
                 ClientID := cid; ConsumerAddress := ca |}, None).
Proof.
  intros matches E1 E2 E3 E4 E5 E6.
  apply sliceIndex_Returned in E1, E2, E3, E4, E5, E6.
  unfold parseLine, mbind, outcome_bind, mret, outcome_ret. fold matches.
  rewrite E1. destruct (parseLong co) as [v1 e1].
  rewrite E2. destruct (parseLong lg) as [v2 e2].
  by rewrite E3, E4, E5, E6.
Qed.

(** C2.  Let a parser be constructed and a detail line match its line
    pattern.  Then [parseLine] returns a record and the nil error, whatever
    the conversions of the two numeric fields do: each of [CurrentOffset]
    and [Lag] is the converted value of its own captured text when
    [strconv.ParseInt] accepts it and the sentinel -1 when it fails, the
    other field and the four text fields being unaffected. *)
Theorem parseLine_conversion_failure_gives_sentinel
    (hdr ln : regexp.Regexp) (p : regexpParser) (text : string) :
  newRegexpParser hdr ln = Ok p ->
  regexp.MatchString (line p) text = true ->
  let matches := regexp.FindStringSubmatch (line p) text in
  exists rec co lg,
    parseLine p text = Returned (rec, None) /\
    matches !! mapIndex (indexByName p) "currentOffset" = Some co /\
    matches !! mapIndex (indexByName p) "lag" = Some lg /\
    (forall e, (strconv.ParseInt co).2 = Some e -> CurrentOffset rec = -1) /\
    ((strconv.ParseInt co).2 = None ->
       CurrentOffset rec = (strconv.ParseInt co).1) /\
    (forall e, (strconv.ParseInt lg).2 = Some e -> Lag rec = -1) /\
    ((strconv.ParseInt lg).2 = None -> Lag rec = (strconv.ParseInt lg).1) /\
    matches !! mapIndex (indexByName p) "topic" = Some (Topic rec) /\
    matches !! mapIndex (indexByName p) "partitionId" = Some (PartitionID rec) /\
    matches !! mapIndex (indexByName p) "clientId" = Some (ClientID rec) /\
    matches !! mapIndex (indexByName p) "consumerAddress" =
      Some (ConsumerAddress rec).
Proof.
  intros [-> _]%newRegexpParser_Ok Hm matches. simpl in *.
  unfold regexp.MatchString in Hm. apply bool_decide_eq_true in Hm as [caps Hm].
  assert (matches = caps) as Hcaps
    by (unfold matches, regexp.FindStringSubmatch; by rewrite Hm).
  pose proof (doExecute_length _ _ _ Hm) as Hlen. rewrite <- Hcaps in Hlen.
  assert (forall name, is_Some
            (matches !! mapIndex (indexNames 0 (regexp.SubexpNames ln) ∅) name))
    as Hidx.
  { intros name. apply lookup_lt_is_Some. rewrite Hlen. apply mapIndex_bound. }
  destruct (Hidx "currentOffset") as [co Hco], (Hidx "lag") as [lg Hlg],
    (Hidx "topic") as [t Ht], (Hidx "partitionId") as [pid Hpid],
    (Hidx "clientId") as [cid Hcid], (Hidx "consumerAddress") as [ca Hca].
  eexists _, co, lg. split.
  { apply parseLine_matched with (co := co) (lg := lg); eassumption. }
  simpl. rewrite !parseLong_value.
  destruct (strconv.ParseInt co) as [v1 [e1|]], (strconv.ParseInt lg) as [v2 [e2|]];
    simpl; split_and!; done.
Qed.

Lemma parseLine_conversion_failure_gives_sentinel_witness :
  exists rec,
    parseLine (initialised header_0_10_2_1 line_0_10_2_1)
      "orders 0 99999999999999999999 110 5 consumer-1-abc /10.0.0.5 app-client-1"
      = Returned (rec, None) /\
    CurrentOffset rec = -1 /\ Lag rec = 5 /\ Topic rec = "orders".
Proof.
  destruct (parseLine_conversion_failure_gives_sentinel
              header_0_10_2_1 line_0_10_2_1
              (initialised header_0_10_2_1 line_0_10_2_1)
              "orders 0 99999999999999999999 110 5 consumer-1-abc /10.0.0.5 app-client-1")
    as (rec & co & lg & Hrec & Hco & Hlg & Hfail & _ & _ & Hlag & Ht & _).
  - vm_compute. reflexivity.
  - vm_compute. reflexivity.
  - vm_compute in Hco, Hlg, Ht. injection Hco as <-. injection Hlg as <-.
    exists rec. split_and!.
    + exact Hrec.
    + apply (Hfail (NumError "ParseInt" "99999999999999999999" ErrRange)).
      vm_compute. reflexivity.
    + rewrite Hlag; vm_compute; reflexivity.
    + by injection Ht.
Defined.

Lemma digit_class c :
  regexp.classMatches regexp.digit c = true <->
  48 <= Z.of_N (N_of_ascii c) <= 57.
Proof.
  unfold regexp.classMatches, regexp.digit, regexp.inRange. simpl.
  rewrite orb_false_r, andb_true_iff, !N.leb_le. lia.
Qed.

Lemma digitVal_digit c :
  regexp.classMatches regexp.digit c = true ->
  strconv.digitVal c = Some (Z.of_N (N_of_ascii c) - 48).
Proof.
  intros H%digit_class. unfold strconv.digitVal.
  destruct (48 <=? _) eqn:E1; [|lia]. destruct (_ <=? 57) eqn:E2; [done|lia].
Qed.

Lemma decimalFrom_ge w : forall n,
  allIn regexp.digit w = true -> 0 <= n -> n <= decimalFrom w n.
Proof.
  induction w as [|c w IH]; intros n; simpl; [lia|].
  intros [Hc%digit_class Hw]%andb_true_iff Hn.
  specialize (IH (n * 10 + (Z.of_N (N_of_ascii c) - 48)) Hw). lia.
Qed.

Lemma parseDigits_digits w : forall n,
  allIn regexp.digit w = true -> 0 <= n <= strconv.maxUint64 ->
  strconv.parseDigits w n =
    if decide (decimalFrom w n <= strconv.maxUint64)
    then (decimalFrom w n, None) else (strconv.maxUint64, Some ErrRange).
Proof.
  induction w as [|c w IH]; intros n; simpl.
  - intros _ Hn. by rewrite decide_True by lia.
  - intros [Hc Hw]%andb_true_iff Hn. rewrite (digitVal_digit c Hc).
    apply digit_class in Hc.
    set (d := Z.of_N (N_of_ascii c) - 48) in *.
    pose proof (decimalFrom_ge w (n * 10 + d) Hw) as Hge.
    change (strconv.maxUint64 / 10 + 1) with 1844674407370955162.
    change (2 ^ 64) with 18446744073709551616.
    change strconv.maxUint64 with 18446744073709551615 in *.
    destruct (n >=? 1844674407370955162) eqn:Ecut.
    + rewrite decide_False by lia. done.
    + rewrite (Z.mod_small (n * 10)) by lia.
      destruct (decide (n * 10 + d < 18446744073709551616)) as [Hsmall|Hbig].
      * rewrite (Z.mod_small (n * 10 + d)) by lia.
        replace ((n * 10 + d <? n * 10) || (n * 10 + d >? 18446744073709551615))
          with false by (symmetry; apply orb_false_iff; lia).
        apply IH; [done | lia].
      * assert ((n * 10 + d) mod 18446744073709551616
                = n * 10 + d - 18446744073709551616) as ->.
        { symmetry. apply (Z.mod_unique _ _ 1); lia. }
        replace (n * 10 + d - 18446744073709551616 <? n * 10) with true
          by (symmetry; apply Z.ltb_lt; lia).
        simpl. rewrite decide_False by lia. done.
Qed.

(** [strconv.ParseInt] on a text of one or more digits: its decimal
    value, unless the value does not fit 64 signed bits. *)
Lemma ParseInt_digits w :
  lang (regexp.Plus regexp.digit) w ->
  strconv.ParseInt w =
    if decide (decimal w < 2 ^ 63) then (decimal w, None)
    else (2 ^ 63 - 1, Some (NumError "ParseInt" w ErrRange)).
Proof.
  intros [Hne Hall]. destruct w as [|c w]; [done|].
  pose proof Hall as Hall'. simpl in Hall'.
  apply andb_true_iff in Hall' as [Hc%digit_class _].
  unfold strconv.ParseInt.
  assert (Ascii.eqb c "+" = false) as ->.
  { apply Ascii.eqb_neq. intros ->. vm_compute in Hc. by destruct Hc. }
  assert (Ascii.eqb c "-" = false) as ->.
  { apply Ascii.eqb_neq. intros ->. vm_compute in Hc. by destruct Hc. }
  unfold strconv.ParseUint.
  rewrite parseDigits_digits by (done || (vm_compute; split; discriminate)).
  fold (decimal (String c w)).
  pose proof (decimalFrom_ge (String c w) 0 Hall ltac:(lia)) as Hge.
  fold (decimal (String c w)) in Hge.
  set (v := decimal (String c w)) in *.
  change strconv.maxUint64 with 18446744073709551615.
  change (2 ^ 63) with 9223372036854775808.
  destruct (decide (v <= 18446744073709551615)) as [Hfit|Hover].
  - simpl. destruct (decide (v < 9223372036854775808)) as [Hlt|Hgeq].
    + replace (v >=? 9223372036854775808) with false by lia.
      unfold strconv.int64.
      change (2 ^ 63) with 9223372036854775808.
      change (2 ^ 64) with 18446744073709551616.
      rewrite Z.mod_small by lia. f_equal. lia.
    + by replace (v >=? 9223372036854775808) with true by lia.
  - simpl. by rewrite decide_False by lia.
Qed.

Lemma numericField_digits w :
  lang (regexp.Plus regexp.digit) w -> numericField w (parseLong w).1.
Proof.
  intros Hw. pose proof Hw as [_ Hall].
  pose proof (decimalFrom_ge w 0 Hall ltac:(lia)) as Hge.
  unfold numericField, parseLong. rewrite (ParseInt_digits w Hw).
  fold (decimal w) in Hge.
  destruct (decide (decimal w < 2 ^ 63)); simpl.
  - left. split_and!; [done | done | lia | done].
  - right. eauto.
Qed.

Lemma parseLines_inv (p : regexpParser) dataLines : forall acc partitions,
  parseLines p dataLines acc = Returned (partitions, None) ->
  exists recs,
    partitions = acc ++ recs /\
    Forall2 (fun text rec => parseLine p text = Returned (rec, None))
            dataLines recs.
Proof.
  induction dataLines as [|text ds IH]; intros acc partitions; simpl.
  - intros [= <-]. exists []. by rewrite app_nil_r.
  - destruct (parseLine p text) as [[rec [e|]]|] eqn:E; simpl; [done| |done].
    intros (recs & -> & Hall)%IH. exists (rec :: recs).
    rewrite <- app_assoc. split; [done | by constructor].
Qed.

Lemma parseLine_recordOfLine (p : regexpParser) (text : string) rec :
  fieldShapes p ->
  parseLine p text = Returned (rec, None) ->
  recordOfLine p text rec.
Proof.
  intros (Ht & Hco & Hlg) (co & lg & t & pid & cid & ca & Eco & Elg & Et & _ & _ & _
                           & -> & _)%parseLine_inv.
  unfold recordOfLine, regexp.FindStringSubmatch, regexp.MatchString in *.
  destruct (regexp.doExecute (line p) text) as [matches|] eqn:Hm; [|done].
  simpl in *.
  destruct (doExecute_group _ _ _ _ _ Hm Ht) as (t' & Et' & Hne & _).
  destruct (doExecute_group _ _ _ _ _ Hm Hco) as (co' & Eco' & Hcol).
  destruct (doExecute_group _ _ _ _ _ Hm Hlg) as (lg' & Elg' & Hlgl).
  assert (t' = t) as -> by congruence.
  assert (co' = co) as -> by congruence.
  assert (lg' = lg) as -> by congruence.
  exists co, lg.
  split_and!; auto using numericField_digits.
Qed.

Lemma builtin_fieldShapes (p : regexpParser) : builtin p -> fieldShapes p.
Proof.
  intros [->|[->| ->]]%builtin_cases; vm_compute; done.
Qed.

Lemma delegate_success_inv parsers output partitions :
  delegate parsers output = Returned (partitions, None) ->
  exists q, q ∈ parsers /\ Parse q output = Returned (partitions, None).
Proof.
  induction parsers as [|q parsers IH]; simpl; [done|].
  destruct (Parse q output) as [[ps [e|]]|] eqn:E; simpl; [| |done].
  - intros (q' & ? & ?)%IH. exists q'. split; [by right | done].
  - intros [= <-]. exists q. split; [by left | done].
Qed.

(** C8.  When a built-in parser returns records without error, the
    records are, in order, those of the data lines of the output, one for
    each line and none left out; the topic of each is not empty; and each
    of [CurrentOffset] and [Lag] is the base-10 value of the digits the
    line pattern captured, as [strconv.ParseInt] converts them, or the
    sentinel -1 when the conversion failed.  The same holds for the
    records the default parser returns, which are those of one built-in
    parser. *)
Theorem Parse_records_invariant (output : string) (partitions : list PartitionInfo) :
  (forall p,
     builtin p ->
     regexpParser_Parse p output = Returned (partitions, None) ->
     exists headerLine dataLines,
       strings.Split output strings.newline = headerLine :: dataLines /\
       length partitions = length dataLines /\
       Forall2 (recordOfLine p) dataLines partitions) /\
  (forall P,
     DefaultParser = Some P ->
     Parse P output = Returned (partitions, None) ->
     exists p headerLine dataLines,
       builtin p /\
       strings.Split output strings.newline = headerLine :: dataLines /\
       length partitions = length dataLines /\
       Forall2 (recordOfLine p) dataLines partitions).
Proof.
  assert (forall p,
     builtin p ->
     regexpParser_Parse p output = Returned (partitions, None) ->
     exists headerLine dataLines,
       strings.Split output strings.newline = headerLine :: dataLines /\
       length partitions = length dataLines /\
       Forall2 (recordOfLine p) dataLines partitions) as Hone.
  { intros p Hp%builtin_fieldShapes. unfold regexpParser_Parse.
    destruct (strings.Split output strings.newline) as [|h ds]; [done|].
    destruct (negb _); [done|].
    intros (recs & -> & Hall)%parseLines_inv. simpl. exists h, ds.
    split_and!; [done | symmetry; by eapply Forall2_length |].
    eapply Forall2_impl; [exact Hall|]. intros text rec.
    by apply parseLine_recordOfLine. }
  split; [exact Hone|].
  intros P HP Hparse. unfold DefaultParser in HP.
  rewrite builtin_0_9_0_1, builtin_0_10_0_1, builtin_0_10_2_1 in HP.
  simpl in HP. injection HP as <-.
  apply (delegate_success_inv
           [regexpParser_iface (initialised header_0_9_0_1 line_0_9_0_1);
            regexpParser_iface (initialised header_0_10_0_1 line_0_10_0_1);
            regexpParser_iface (initialised header_0_10_2_1 line_0_10_2_1)])
    in Hparse as (q & Hq & Hparse).
  rewrite !elem_of_cons, elem_of_nil in Hq.
  destruct Hq as [->|[->|[->|[]]]]; simpl in Hparse.
  - destruct (Hone _ (or_introl builtin_0_9_0_1) Hparse) as (h & ds & ?).
    exists (initialised header_0_9_0_1 line_0_9_0_1), h, ds.
    split; [left; apply builtin_0_9_0_1 | done].
  - destruct (Hone _ (or_intror (or_introl builtin_0_10_0_1)) Hparse)
      as (h & ds & ?).
    exists (initialised header_0_10_0_1 line_0_10_0_1), h, ds.
    split; [right; left; apply builtin_0_10_0_1 | done].
  - destruct (Hone _ (or_intror (or_intror builtin_0_10_2_1)) Hparse)
      as (h & ds & ?).
    exists (initialised header_0_10_2_1 line_0_10_2_1), h, ds.
    split; [right; right; apply builtin_0_10_2_1 | done].
Qed.

Lemma Parse_records_invariant_witness :
  (exists headerLine dataLines,
     strings.Split example_output strings.newline = headerLine :: dataLines /\
     length example_records = length dataLines /\
     Forall2 (recordOfLine (initialised header_0_10_2_1 line_0_10_2_1))
             dataLines example_records) /\
  (exists p headerLine dataLines,
     builtin p /\
     strings.Split example_output strings.newline = headerLine :: dataLines /\
     length example_records = length dataLines /\
     Forall2 (recordOfLine p) dataLines example_records).
Proof.
  split.
  - apply (proj1 (Parse_records_invariant example_output example_records)
             (initialised header_0_10_2_1 line_0_10_2_1)).
    + right; right. vm_compute. reflexivity.
    + vm_compute. reflexivity.
  - apply (proj2 (Parse_records_invariant example_output example_records)
             (DelegatingParser_iface
                {| Parsers :=
                     [regexpParser_iface (initialised header_0_9_0_1 line_0_9_0_1);
                      regexpParser_iface (initialised header_0_10_0_1 line_0_10_0_1);
                      regexpParser_iface (initialised header_0_10_2_1 line_0_10_2_1)]
                |})).
    + unfold DefaultParser.
      rewrite builtin_0_9_0_1, builtin_0_10_0_1, builtin_0_10_2_1. reflexivity.
    + vm_compute. reflexivity.
Defined.

End Lines.

(** * Further properties of the code *)

(** ** parseGroups: shape of the result, round trip, composition *)

Section ParseGroupsMore.

Lemma Split_app (a b : string) sep :
  strings.Split (a +:+ String sep b) sep =
  strings.Split a sep ++ strings.Split b sep.
Proof.
  induction a as [|c a IH].
  - change (EmptyString +:+ String sep b) with (String sep b).
    simpl. by rewrite Ascii.eqb_refl.
  - rewrite app_cons. simpl. rewrite IH.
    destruct (Ascii.eqb c sep); [done|].
    pose proof (Split_nonempty a sep).
    by destruct (strings.Split a sep).
Qed.

Lemma Split_one (s : string) sep :
  strings.Count s sep = 0%nat -> strings.Split s sep = [s].
Proof.
  induction s as [|c s IH]; simpl; [done|].
  destruct (Ascii.eqb c sep); [done|]. intros H. by rewrite IH.
Qed.

Lemma Split_Join (ls : list string) sep :
  ls <> [] ->
  Forall (fun l => strings.Count l sep = 0%nat) ls ->
  strings.Split (strings.Join ls sep) sep = ls.
Proof.
  intros Hne Hall. induction Hall as [|l ls Hl Hall IH]; [done|].
  destruct ls as [|l2 ls].
  - simpl. by apply Split_one.
  - change (strings.Join (l :: l2 :: ls) sep)
      with (l +:+ String sep (strings.Join (l2 :: ls) sep)).
    rewrite Split_app, IH by done. by rewrite Split_one.
Qed.

Lemma HasPrefix_app_sep (a b m : string) sep :
  strings.Count m sep = 0%nat ->
  strings.HasPrefix (a +:+ String sep b) m = strings.HasPrefix a m.
Proof.
  revert a; induction m as [|x m IH]; intros a; simpl; [done|].
  destruct (Ascii.eqb x sep) eqn:Ex; [done|]. intros Hm.
  destruct a as [|y a].
  - change (EmptyString +:+ String sep b) with (String sep b). simpl.
    by rewrite Ex.
  - rewrite app_cons. simpl. by rewrite IH.
Qed.

Lemma Contains_app_sep (a b m : string) sep :
  strings.Count m sep = 0%nat ->
  strings.Contains (a +:+ String sep b) m =
  strings.Contains a m || strings.Contains b m.
Proof.
  intros Hm. induction a as [|y a IH].
  - change (EmptyString +:+ String sep b) with (String sep b).
    simpl. rewrite <- (HasPrefix_app_sep EmptyString b m sep Hm).
    change (EmptyString +:+ String sep b) with (String sep b).
    by rewrite orb_false_r.
  - rewrite app_cons. simpl. rewrite IH, <- app_cons.
    rewrite HasPrefix_app_sep by done. by rewrite !orb_assoc.
Qed.

Lemma Contains_Join (ls : list string) (m : string) sep :
  strings.Count m sep = 0%nat -> m <> EmptyString ->
  Forall (fun l => strings.Contains l m = false) ls ->
  strings.Contains (strings.Join ls sep) m = false.
Proof.
  intros Hm Hne Hall. induction Hall as [|l ls Hl Hall IH].
  - simpl. destruct m; [done|]. done.
  - destruct ls as [|l2 ls]; [done|].
    change (strings.Join (l :: l2 :: ls) sep)
      with (l +:+ String sep (strings.Join (l2 :: ls) sep)).
    by rewrite Contains_app_sep, Hl, IH.
Qed.

Lemma parseGroups_ok (output : string) :
  strings.Contains output runtimeFault = false ->
  parseGroups output =
    (filter (fun l => l <> EmptyString)
            (strings.Split output strings.newline), None).
Proof.
  intros H. unfold parseGroups. by rewrite H, collectGroups_filter.
Qed.

Lemma parseGroups_error_iff (output : string) :
  (parseGroups output).2 = None <->
  strings.Contains output runtimeFault = false.
Proof.
  unfold parseGroups. by destruct (strings.Contains output runtimeFault).
Qed.

(** X1.  Whatever the output, every group [parseGroups] returns is a
    non-empty text without a line terminator. *)
Theorem parseGroups_groups_are_lines (output g : string) :
  g ∈ (parseGroups output).1 ->
  g <> EmptyString /\ strings.Count g strings.newline = 0%nat.
Proof.
  unfold parseGroups.
  destruct (strings.Contains output runtimeFault); simpl.
  - by intros ?%elem_of_nil.
  - rewrite collectGroups_filter. intros [Hne Hin]%list_elem_of_filter.
    split; [done | by eapply Split_no_sep].
Qed.

Lemma parseGroups_groups_are_lines_witness :
  "group-b" <> EmptyString /\ strings.Count "group-b" strings.newline = 0%nat.
Proof.
  apply (parseGroups_groups_are_lines
           ("group-a" +:+ nl +:+ nl +:+ "group-b" +:+ nl)).
  apply (bool_decide_unpack _). vm_compute. exact I.
Defined.

(** X2.  Round trip: group names that are non-empty, hold no line
    terminator and do not hold the runtime-fault text, written one per
    line, are read back by [parseGroups] unchanged and without error. *)
Theorem parseGroups_Join_roundtrip (groups : list string) :
  Forall (fun g => g <> EmptyString /\
                   strings.Count g strings.newline = 0%nat /\
                   strings.Contains g runtimeFault = false) groups ->
  parseGroups (strings.Join groups strings.newline) = (groups, None).
Proof.
  intros Hall. rewrite parseGroups_ok.
  - destruct groups as [|g groups]; [done|].
    rewrite Split_Join; [|done|].
    + f_equal. clear -Hall.
      induction Hall as [|x l (Hx & _) _ IH]; [done|].
      by rewrite filter_cons_True, IH.
    + eapply Forall_impl; [exact Hall|]. by intros x (_ & ? & _).
  - apply Contains_Join; [done | done |].
    eapply Forall_impl; [exact Hall|]. by intros x (_ & _ & ?).
Qed.

Lemma parseGroups_Join_roundtrip_witness :
  parseGroups (strings.Join ["billing"; "orders-v2"; "audit"] strings.newline)
  = (["billing"; "orders-v2"; "audit"], None).
Proof.
  apply parseGroups_Join_roundtrip.
  repeat constructor; (done || (vm_compute; reflexivity)).
Defined.

(** X3.  Composition: when two outputs are each parsed without error, the
    first followed by a line terminator and the second is parsed without
    error as well, and its groups are those of the first followed by those
    of the second. *)
Theorem parseGroups_app (a b : string) :
  (parseGroups a).2 = None ->
  (parseGroups b).2 = None ->
  parseGroups (a +:+ String strings.newline b) =
    ((parseGroups a).1 ++ (parseGroups b).1, None).
Proof.
  intros Ha%parseGroups_error_iff Hb%parseGroups_error_iff.
  rewrite (parseGroups_ok a Ha), (parseGroups_ok b Hb). simpl.
  rewrite parseGroups_ok by (by rewrite Contains_app_sep, Ha, Hb).
  by rewrite Split_app, filter_app.
Qed.

Lemma parseGroups_app_witness :
  parseGroups (("billing" +:+ nl) +:+ String strings.newline ("orders" +:+ nl +:+ "audit"))
  = (["billing"; "orders"; "audit"], None).
Proof.
  apply (parseGroups_app ("billing" +:+ nl) ("orders" +:+ nl +:+ "audit"));
    vm_compute; reflexivity.
Defined.

End ParseGroupsMore.

(** ** parseLong: what it accepts and what it returns *)

Section ParseLongMore.

Lemma digitVal_Some_class c d :
  strconv.digitVal c = Some d -> regexp.classMatches regexp.digit c = true.
Proof.
  unfold strconv.digitVal. intros H. apply digit_class.
  destruct (48 <=? _) eqn:E1; [|done]. destruct (_ <=? 57) eqn:E2; [|done]. lia.
Qed.

Lemma parseDigits_nondigit s : forall n,
  allIn regexp.digit s = false ->
  strconv.parseDigits s n = (0, Some ErrSyntax) \/
  strconv.parseDigits s n = (strconv.maxUint64, Some ErrRange).
Proof.
  induction s as [|c s IH]; intros n; simpl; [done|].
  destruct (strconv.digitVal c) as [d|] eqn:Ed; [|by left].
  rewrite (digitVal_Some_class c d Ed). simpl. intros Hs.
  destruct (n >=? _); [by right|].
  destruct (_ || _); [by right|]. by apply IH.
Qed.

Lemma ParseUint_digits (s : string) :
  s <> EmptyString -> allIn regexp.digit s = true ->
  strconv.ParseUint s =
    if decide (decimal s <= strconv.maxUint64) then (decimal s, None)
    else (strconv.maxUint64, Some (NumError "ParseUint" s ErrRange)).
Proof.
  intros Hne Hall. unfold strconv.ParseUint.
  destruct s as [|c s]; [done|].
  rewrite parseDigits_digits by (done || (vm_compute; split; discriminate)).
  fold (decimal (String c s)). by case_decide.
Qed.

Lemma ParseUint_nondigit (s : string) :
  allIn regexp.digit s = false ->
  strconv.ParseUint s = (0, Some (NumError "ParseUint" s ErrSyntax)) \/
  strconv.ParseUint s =
    (strconv.maxUint64, Some (NumError "ParseUint" s ErrRange)).
Proof.
  intros Hall. unfold strconv.ParseUint. destruct s as [|c s]; [done|].
  destruct (parseDigits_nondigit (String c s) 0 Hall) as [-> | ->]; auto.
Qed.

(** The part of [ParseInt] after the sign is picked off. *)
Lemma parseLong_cases (text s : string) (neg : bool) c s1 :
  text = String c s1 ->
  (if Ascii.eqb c "+" then (false, s1)
   else if Ascii.eqb c "-" then (true, s1) else (false, text)) = (neg, s) ->
  match s with
  | EmptyString => None
  | String _ _ =>
      if allIn regexp.digit s
      then Some (if neg then - decimal s else decimal s) else None
  end = signedDecimal text /\
  parseLong text =
    match strconv.ParseUint s with
    | (_, Some (NumError _ _ ErrSyntax)) =>
        (-1, Some (NumError "ParseInt" text ErrSyntax))
    | (un, _) =>
        if negb neg && (un >=? 2 ^ 63) then
          (-1, Some (NumError "ParseInt" text ErrRange))
        else if neg && (un >? 2 ^ 63) then
          (-1, Some (NumError "ParseInt" text ErrRange))
        else (if neg then strconv.int64 (- strconv.int64 un)
              else strconv.int64 un, None)
    end.
Proof.
  intros -> Hsign. unfold signedDecimal, parseLong, strconv.ParseInt.
  rewrite Hsign. split; [done|].
  destruct (strconv.ParseUint s) as [un [[?|f num []]|]]; simpl;
    repeat (destruct (_ && _); simpl); done.
Qed.

(** X4.  [parseLong] accepts exactly an optional sign followed by one or
    more decimal digits whose value fits 64 signed bits, and returns that
    value with no error.  For digits whose value does not fit it returns
    -1 with the out-of-range error of [strconv.ParseInt]; for any other
    text (empty, a sign alone, a byte that is no digit) it returns -1
    with an error of [strconv.ParseInt] on that text. *)
Theorem parseLong_spec (text : string) :
  match signedDecimal text with
  | Some z =>
      parseLong text =
        if decide (- 2 ^ 63 <= z < 2 ^ 63) then (z, None)
        else (-1, Some (NumError "ParseInt" text ErrRange))
  | None => exists e, parseLong text = (-1, Some (NumError "ParseInt" text e))
  end.
Proof.
  destruct text as [|c s1]; [by exists ErrSyntax|].
  destruct (if Ascii.eqb c "+" then (false, s1)
            else if Ascii.eqb c "-" then (true, s1)
            else (false, String c s1)) as [neg s] eqn:Hsign.
  destruct (parseLong_cases (String c s1) s neg c s1 eq_refl Hsign) as [<- ->].
  destruct s as [|c' s']; [by exists ErrSyntax|].
  destruct (allIn regexp.digit (String c' s')) eqn:Hall.
  - rewrite ParseUint_digits by done.
    pose proof (decimalFrom_ge (String c' s') 0 Hall ltac:(lia)) as Hge.
    fold (decimal (String c' s')) in Hge.
    set (v := decimal (String c' s')) in *.
    change strconv.maxUint64 with 18446744073709551615.
    unfold strconv.int64.
    change (2 ^ 63) with 9223372036854775808.
    change (2 ^ 64) with 18446744073709551616.
    destruct (decide (v <= 18446744073709551615)) as [Hfit|Hover].
    + destruct neg; simpl.
      * destruct (v >? 9223372036854775808) eqn:E.
        { by rewrite decide_False by lia. }
        rewrite decide_True by lia. f_equal.
        destruct (decide (v = 9223372036854775808)) as [->|Hne]; [done|].
        rewrite (Z.mod_small (v + _)) by lia.
        replace (v + 9223372036854775808 - 9223372036854775808) with v by lia.
        destruct (decide (v = 0)) as [->|Hnz]; [done|].
        rewrite Z.mod_small by lia. lia.
      * destruct (v >=? 9223372036854775808) eqn:E.
        { by rewrite decide_False by lia. }
        rewrite decide_True by lia. f_equal.
        rewrite Z.mod_small by lia. lia.
    + destruct neg; simpl; by rewrite decide_False by lia.
  - destruct (ParseUint_nondigit _ Hall) as [-> | ->].
    + by exists ErrSyntax.
    + exists ErrRange. by destruct neg.
Qed.

End ParseLongMore.

(** ** newRegexpParser: which error, which index *)

Section ConstructionMore.

Lemma missingField_first (m : gmap string nat) fields e :
  missingField m fields = Some e ->
  exists before f after,
    fields = before ++ f :: after /\
    Forall (fun g => is_Some (m !! g)) before /\
    m !! f = None /\
    e = errorString ("line regexp missing '" +:+ f +:+ "' capturing group").
Proof.
  induction fields as [|g fields IH]; simpl; [done|].
  destruct (m !! g) as [i|] eqn:E.
  - intros (before & f & after & -> & Hall & Hf & ->)%IH.
    exists (g :: before), f, after. split_and!; [done| |done|done].
    constructor; [by rewrite E | done].
  - intros [= <-]. exists [], g, fields. by split_and!.
Qed.

(** X5.  When several required fields are missing, the error of
    [newRegexpParser] names the first of them in the order topic,
    partitionId, currentOffset, lag, clientId, consumerAddress: every
    required field before the one named is a group of the line pattern. *)
Theorem newRegexpParser_reports_first_missing (hdr ln : regexp.Regexp) e :
  newRegexpParser hdr ln = Err e ->
  exists before f after,
    requiredFields = before ++ f :: after /\
    Forall (fun g => g ∈ regexp.groupNames ln) before /\
    (f ∉ regexp.groupNames ln) /\
    e = errorString ("line regexp missing '" +:+ f +:+ "' capturing group").
Proof.
  unfold newRegexpParser.
  destruct (missingField _ requiredFields) as [e'|] eqn:E; [|done].
  intros [= <-].
  apply missingField_first in E as (before & f & after & Hreq & Hall & Hf & ->).
  assert (forall g, g ∈ requiredFields -> g <> EmptyString) as Hnamed
    by apply requiredFields_named.
  exists before, f, after. split_and!; [done| | |done].
  - apply list.Forall_forall. intros g Hg.
    apply lookup_index_of_group.
    + apply Hnamed. rewrite Hreq. apply elem_of_app. by left.
    + rewrite list.Forall_forall in Hall. by apply Hall.
  - intros Hin%lookup_index_of_group.
    + rewrite Hf in Hin. by destruct Hin.
    + apply Hnamed. rewrite Hreq. apply elem_of_app. right. by left.
Qed.

Lemma newRegexpParser_reports_first_missing_witness :
  let ln := regexp.concat
              [regexp.Capture "topic" (regexp.Plus topicClass);
               regexp.Plus regexp.space;
               regexp.Capture "currentOffset" (regexp.Plus regexp.digit);
               regexp.Plus regexp.space;
               regexp.Capture "clientId" (regexp.Plus regexp.notSpace)] in
  exists before f after,
    requiredFields = before ++ f :: after /\
    Forall (fun g => g ∈ regexp.groupNames ln) before /\
    (f ∉ regexp.groupNames ln) /\
    errorString "line regexp missing 'partitionId' capturing group" =
      errorString ("line regexp missing '" +:+ f +:+ "' capturing group").
Proof.
  intros ln.
  apply (newRegexpParser_reports_first_missing header_0_10_2_1 ln).
  vm_compute. reflexivity.
Defined.

Lemma indexNames_last names : forall i0 (m : gmap string nat) k j,
  indexNames i0 names m !! k = Some j <->
  (exists j', j = (i0 + j')%nat /\ names !! j' = Some k /\
              forall j'', names !! j'' = Some k -> (j'' <= j')%nat) \/
  ((k ∉ names) /\ m !! k = Some j).
Proof.
  induction names as [|n ns IH]; intros i0 m k j; simpl.
  - split.
    + intros H. right. split; [apply not_elem_of_nil | done].
    + intros [(j' & _ & H & _)|[_ H]]; [done | done].
  - rewrite IH. split.
    + intros [(j' & -> & Hj' & Hmax)|(Hnin & Hm)].
      * left. exists (S j'). split_and!; [lia | done |].
        intros [|j''] Hj''; [lia|]. simpl in Hj''. apply Hmax in Hj''. lia.
      * destruct (decide (n = k)) as [->|Hne].
        -- rewrite lookup_insert_eq in Hm. injection Hm as <-.
           left. exists 0%nat. split_and!; [lia | done |].
           intros [|j''] Hj''; [lia|]. simpl in Hj''.
           destruct Hnin. by eapply list_elem_of_lookup_2.
        -- rewrite lookup_insert_ne in Hm by done. right.
           split; [|done]. by intros [->|?]%elem_of_cons.
    + intros [(j' & -> & Hj' & Hmax)|(Hnin & Hm)].
      * destruct j' as [|j']; simpl in Hj'.
        -- injection Hj' as ->. right. split.
           ++ intros [j'' Hj'']%list_elem_of_lookup_1.
              specialize (Hmax (S j'') Hj''). lia.
           ++ rewrite lookup_insert_eq. f_equal. lia.
        -- left. exists j'. split_and!; [lia | done |].
           intros j'' Hj''. specialize (Hmax (S j'') Hj''). lia.
      * right. apply not_elem_of_cons in Hnin as [Hne Hnin].
        split; [done|]. by rewrite lookup_insert_ne.
Qed.

(** X6.  The index of a constructed parser holds exactly the names that
    [SubexpNames] lists for the line pattern, the empty name of the whole
    match and of unnamed groups included, and maps each name to the last
    position that bears it: when two groups share a name, the later one
    is the one [parseLine] reads. *)
Theorem indexByName_is_last_position (hdr ln : regexp.Regexp) (p : regexpParser)
    (name : string) (i : nat) :
  newRegexpParser hdr ln = Ok p ->
  (indexByName p !! name = Some i <->
   regexp.SubexpNames ln !! i = Some name /\
   forall j, regexp.SubexpNames ln !! j = Some name -> (j <= i)%nat).
Proof.
  intros [-> _]%newRegexpParser_Ok. unfold initialised. cbn [indexByName].
  rewrite (indexNames_last (regexp.SubexpNames ln)). split.
  - intros [(j' & -> & ? & ?)|[_ H]]; [done|]. by rewrite lookup_empty in H.
  - intros [Hi Hmax]. left. exists i. by split_and!.
Qed.

Lemma indexByName_is_last_position_witness :
  let ln := regexp.concat
              [regexp.Capture "topic" (regexp.Plus topicClass);
               regexp.Literal ":";
               regexp.Capture "topic" (regexp.Plus topicClass);
               regexp.Plus regexp.space;
               regexp.Capture "partitionId" (regexp.Plus regexp.digit);
               regexp.Capture "currentOffset" (regexp.Plus regexp.digit);
               regexp.Capture "lag" (regexp.Plus regexp.digit);
               regexp.Capture "clientId" (regexp.Plus regexp.notSpace);
               regexp.Capture "consumerAddress" (regexp.Plus regexp.notSpace)] in
  indexByName (initialised header_0_10_2_1 ln) !! "topic" = Some 2%nat.
Proof.
  intros ln.
  apply (indexByName_is_last_position header_0_10_2_1 ln
           (initialised header_0_10_2_1 ln) "topic" 2).
  - vm_compute. reflexivity.
  - split; [reflexivity|].
    intros j Hj.
    destruct j as [|[|[|j]]]; [lia | lia | lia |].
    do 5 (destruct j as [|j]; [discriminate Hj|]). discriminate Hj.
Defined.

End ConstructionMore.

(** ** regexpParser.Parse: closed form and edge cases *)

Section ParseMore.

Lemma parseLine_constructed (hdr ln : regexp.Regexp) (p : regexpParser)
    (text : string) :
  newRegexpParser hdr ln = Ok p ->
  parseLine p text =
    if regexp.MatchString (line p) text
    then Returned (lineRecord p text, None) else Panicked.
Proof.
  intros [-> _]%newRegexpParser_Ok.
  destruct (regexp.MatchString _ text) eqn:Hm.
  - unfold regexp.MatchString in Hm.
    apply bool_decide_eq_true in Hm as [caps Hm].
    pose proof (doExecute_length _ _ _ Hm) as Hlen.
    assert (regexp.FindStringSubmatch (line (initialised hdr ln)) text = caps)
      as Hcaps by (unfold regexp.FindStringSubmatch; by rewrite Hm).
    assert (forall name, is_Some
              (caps !! mapIndex (indexByName (initialised hdr ln)) name)) as Hidx.
    { intros name. apply lookup_lt_is_Some. rewrite Hlen. apply mapIndex_bound. }
    destruct (Hidx "currentOffset") as [co Hco], (Hidx "lag") as [lg Hlg],
      (Hidx "topic") as [t Ht], (Hidx "partitionId") as [pid Hpid],
      (Hidx "clientId") as [cid Hcid], (Hidx "consumerAddress") as [ca Hca].
    rewrite (parseLine_matched _ text co lg t pid cid ca)
      by (rewrite Hcaps; done).
    unfold lineRecord. rewrite Hcaps, Hco, Hlg, Ht, Hpid, Hcid, Hca. done.
  - apply parseLine_unmatched. by apply FindStringSubmatch_nil.
Qed.

Lemma parseLines_constructed (hdr ln : regexp.Regexp) (p : regexpParser)
    (dataLines : list string) : forall acc,
  newRegexpParser hdr ln = Ok p ->
  parseLines p dataLines acc =
    if forallb (regexp.MatchString (line p)) dataLines
    then Returned (acc ++ (lineRecord p <$> dataLines), None) else Panicked.
Proof.
  intros acc Hp. revert acc.
  induction dataLines as [|text ds IH]; intros acc; simpl.
  - by rewrite app_nil_r.
  - rewrite (parseLine_constructed hdr ln p text Hp).
    destruct (regexp.MatchString (line p) text); simpl; [|done].
    rewrite IH. destruct (forallb _ ds); [|done].
    by rewrite <- app_assoc.
Qed.

(** X7.  The whole behaviour of [Parse] for a constructed parser, by the
    lines of the output: the incorrect-header error when the first line
    does not match the header pattern; otherwise, when every other line
    matches the line pattern, one record per line in the order of the
    lines, each read from the submatches of its own line, and no error;
    otherwise a panic.  There is no other outcome: no error after the
    header check and no partial list of records. *)
Theorem Parse_closed_form (hdr ln : regexp.Regexp) (p : regexpParser)
    (output headerLine : string) (dataLines : list string) :
  newRegexpParser hdr ln = Ok p ->
  strings.Split output strings.newline = headerLine :: dataLines ->
  regexpParser_Parse p output =
    if negb (regexp.MatchString hdr headerLine) then Returned incorrectHeader
    else if forallb (regexp.MatchString ln) dataLines
         then Returned (lineRecord p <$> dataLines, None)
         else Panicked.
Proof.
  intros Hp Hs. unfold regexpParser_Parse. rewrite Hs.
  rewrite (parseLines_constructed hdr ln p dataLines [] Hp).
  apply newRegexpParser_Ok in Hp as [-> _]. done.
Qed.

Lemma Parse_closed_form_witness :
  regexpParser_Parse (initialised header_0_10_2_1 line_0_10_2_1) example_output =
    Returned
      (lineRecord (initialised header_0_10_2_1 line_0_10_2_1) <$>
         [detail_text_0_10_2_1; overflow_text_0_10_2_1], None).
Proof.
  apply (Parse_closed_form header_0_10_2_1 line_0_10_2_1
           (initialised header_0_10_2_1 line_0_10_2_1)
           example_output header_text_0_10_2_1
           [detail_text_0_10_2_1; overflow_text_0_10_2_1]).
  - vm_compute. reflexivity.
  - vm_compute. reflexivity.
Defined.

(** X8.  When the first line does not match the header pattern, [Parse]
    returns the incorrect-header error without reading the other lines:
    whatever follows the first line terminator, lines that would make
    [parseLine] panic included, the result is the same. *)
Theorem Parse_header_mismatch_ignores_rest (p : regexpParser)
    (headerLine rest : string) :
  strings.Count headerLine strings.newline = 0%nat ->
  regexp.MatchString (header p) headerLine = false ->
  regexpParser_Parse p (headerLine +:+ String strings.newline rest) =
    Returned incorrectHeader.
Proof.
  intros Hh Hm. unfold regexpParser_Parse.
  rewrite Split_app, Split_one by done. simpl. by rewrite Hm.
Qed.

Lemma Parse_header_mismatch_ignores_rest_witness :
  regexpParser_Parse (initialised header_0_10_2_1 line_0_10_2_1)
    ("Error: Consumer group `orders` does not exist." +:+
     String strings.newline ("not a detail line" +:+ nl)) =
  Returned incorrectHeader.
Proof.
  apply Parse_header_mismatch_ignores_rest; vm_compute; reflexivity.
Defined.

Lemma builtin_line_rejects_empty (p : regexpParser) :
  builtin p -> regexp.MatchString (line p) EmptyString = false.
Proof. intros [->|[->| ->]]%builtin_cases; vm_compute; reflexivity. Qed.

(** X9.  A blank line among the data lines makes [Parse] panic whenever
    the header matches and the line pattern does not match the empty
    line, as no built-in line pattern does.  In particular an output
    that a built-in parser would accept is no longer accepted once a
    line terminator is added at its end. *)
Theorem Parse_blank_line_panics (p : regexpParser) (output headerLine : string)
    (dataLines : list string) :
  strings.Split output strings.newline = headerLine :: dataLines ->
  regexp.MatchString (header p) headerLine = true ->
  (regexp.MatchString (line p) EmptyString = false \/ builtin p) ->
  (EmptyString ∈ dataLines -> regexpParser_Parse p output = Panicked) /\
  regexpParser_Parse p (output +:+ nl) = Panicked.
Proof.
  intros Hs Hh Hempty.
  assert (regexp.MatchString (line p) EmptyString = false) as Hno
    by (destruct Hempty; [done | by apply builtin_line_rejects_empty]).
  apply FindStringSubmatch_nil in Hno. split.
  - intros Hin. by eapply Parse_unmatched_line_panics.
  - eapply (Parse_unmatched_line_panics p _ headerLine (dataLines ++ [EmptyString]));
      [|done| |done].
    + unfold nl. by rewrite Split_app, Hs.
    + apply elem_of_app. right. by left.
Qed.

Lemma Parse_blank_line_panics_witness :
  regexpParser_Parse (initialised header_0_10_2_1 line_0_10_2_1)
    (example_output +:+ nl) = Panicked.
Proof.
  apply (Parse_blank_line_panics (initialised header_0_10_2_1 line_0_10_2_1)
           example_output header_text_0_10_2_1
           [detail_text_0_10_2_1; overflow_text_0_10_2_1]).
  - vm_compute. reflexivity.
  - vm_compute. reflexivity.
  - right. right; right. vm_compute. reflexivity.
Defined.

(** X10.  The header check is a search, not an equality: a one-line
    output is accepted as soon as some piece of the line belongs to the
    language of the header pattern, whatever text surrounds it.  Having
    no data line, such an output gives the empty list of records and no
    error. *)
Theorem Parse_header_only (p : regexpParser) (pre w post : string) :
  lang (header p) w ->
  strings.Count (pre +:+ w +:+ post) strings.newline = 0%nat ->
  regexpParser_Parse p (pre +:+ w +:+ post) = Returned ([], None).
Proof.
  intros Hw Hone. unfold regexpParser_Parse. rewrite Split_one by done.
  assert (regexp.MatchString (header p) (pre +:+ w +:+ post) = true) as ->.
  { apply MatchString_spec. by exists pre, w, post. }
  done.
Qed.

Lemma Parse_header_only_witness :
  regexpParser_Parse (initialised header_0_9_0_1 line_0_9_0_1)
    ("# " +:+
     "GROUP, TOPIC, PARTITION, CURRENT OFFSET, LOG END OFFSET, LAG, OWNER"
     +:+ " (old consumer)") = Returned ([], None).
Proof.
  apply (Parse_header_only (initialised header_0_9_0_1 line_0_9_0_1)).
  - reflexivity.
  - vm_compute. reflexivity.
Defined.

End ParseMore.

(** ** DelegatingParser: which parser decides, composition *)

Section DelegatingMore.

Lemma delegate_app (a b : list DescribeGroupParser) (output : string) :
  delegate (a ++ b) output =
    match delegate a output with
    | Returned (_, Some _) => delegate b output
    | r => r
    end.
Proof.
  induction a as [|q a IH]; simpl; [done|].
  destruct (Parse q output) as [[recs [e|]]|]; simpl; done.
Qed.

Lemma delegate_rejecting (before : list DescribeGroupParser) (output : string) :
  Forall (fun q => rejects q output) before ->
  delegate before output = Returned noParser.
Proof. apply delegate_all_reject. Qed.

(** Either every parser rejects, or a first one does not. *)
Lemma first_not_rejecting (parsers : list DescribeGroupParser) (output : string) :
  Forall (fun q => rejects q output) parsers \/
  exists before q after,
    parsers = before ++ q :: after /\
    Forall (fun q => rejects q output) before /\
    (Parse q output = Panicked \/
     exists recs, Parse q output = Returned (recs, None)).
Proof.
  induction parsers as [|q parsers IH]; [by left|].
  destruct (Parse q output) as [[recs [e|]]|] eqn:E.
  - destruct IH as [Hall|(before & q' & after & -> & Hb & Hq')].
    + left. constructor; [by exists recs, e | done].
    + right. exists (q :: before), q', after. split_and!; [done| |done].
      constructor; [by exists recs, e | done].
  - right. exists [], q, parsers. split_and!; eauto.
  - right. exists [], q, parsers. split_and!; eauto.
Qed.

Lemma delegate_decided before q after output :
  Forall (fun q => rejects q output) before ->
  (Parse q output = Panicked \/
   exists recs, Parse q output = Returned (recs, None)) ->
  delegate (before ++ q :: after) output = Parse q output.
Proof.
  intros Hb Hq. rewrite delegate_app, (delegate_rejecting before output Hb).
  simpl. destruct Hq as [-> | [recs ->]]; done.
Qed.

(** X11.  The first parser of the list that does not return an error
    decides the result of [DelegatingParser.Parse], in both directions:
    records are returned exactly when that parser returns them, a panic
    occurs exactly when that parser panics, and an error is returned
    exactly when every parser returns one.  The error is then always
    "no parser could parse the output" with the nil slice: the error and
    the partial records of a parser are never passed on. *)
Theorem DelegatingParser_decided_by_first (p : DelegatingParser) (output : string) :
  (forall recs,
     DelegatingParser_Parse p output = Returned (recs, None) <->
     exists before q after,
       Parsers p = before ++ q :: after /\
       Forall (fun q => rejects q output) before /\
       Parse q output = Returned (recs, None)) /\
  (DelegatingParser_Parse p output = Panicked <->
   exists before q after,
     Parsers p = before ++ q :: after /\
     Forall (fun q => rejects q output) before /\
     Parse q output = Panicked) /\
  (forall recs e,
     DelegatingParser_Parse p output = Returned (recs, Some e) <->
     Forall (fun q => rejects q output) (Parsers p) /\
     recs = [] /\ e = errors_New "no parser could parse the output").
Proof.
  unfold DelegatingParser_Parse.
  destruct (first_not_rejecting (Parsers p) output)
    as [Hall|(before & q & after & Heq & Hb & Hq)].
  - rewrite (delegate_rejecting _ _ Hall). split_and!.
    + intros recs. split; [done|].
      intros (b & q & a & Heq & _ & Hq). rewrite Heq in Hall.
      apply Forall_app in Hall as [_ [(? & ? & Hr) _]%Forall_cons]. congruence.
    + split; [done|].
      intros (b & q & a & Heq & _ & Hq). rewrite Heq in Hall.
      apply Forall_app in Hall as [_ [(? & ? & Hr) _]%Forall_cons]. congruence.
    + intros recs e. split; [by intros [= <- <-] | by intros (_ & -> & ->)].
  - rewrite Heq, (delegate_decided before q after output Hb Hq).
    assert (forall b' q' a',
              before ++ q :: after = b' ++ q' :: a' ->
              Forall (fun q => rejects q output) b' ->
              (Parse q' output = Panicked \/
               exists recs, Parse q' output = Returned (recs, None)) ->
              q' = q) as Huniq.
    { intros b' q' a' Heq' Hb' Hq'.
      destruct (decide (length b' = length before)) as [Hl|Hl].
      - apply app_inj_1 in Heq' as [_ [= ->]]; done.
      - assert (forall (l1 l2 : list DescribeGroupParser) x1 x2 t1 t2,
                  l1 ++ x1 :: t1 = l2 ++ x2 :: t2 ->
                  (length l1 < length l2)%nat -> x1 ∈ l2) as Hin.
        { clear. induction l1 as [|y l1 IH]; intros [|z l2] x1 x2 t1 t2 H Hlt;
            simpl in *; try lia.
          - injection H as -> _. by left.
          - injection H as -> H. right. eapply IH; [exact H | lia]. }
        destruct (decide (length b' < length before)%nat).
        + pose proof (Hin _ _ _ _ _ _ (eq_sym Heq') ltac:(done)) as Hq'in.
          rewrite list.Forall_forall in Hb.
          destruct (Hb _ Hq'in) as (? & ? & Hr).
          destruct Hq' as [Hq'|[? Hq']]; congruence.
        + pose proof (Hin _ _ _ _ _ _ Heq' ltac:(lia)) as Hqin.
          rewrite list.Forall_forall in Hb'.
          destruct (Hb' _ Hqin) as (? & ? & Hr).
          destruct Hq as [Hq|[? Hq]]; congruence. }
    split_and!.
    + intros recs. split.
      * intros H. by exists before, q, after.
      * intros (b' & q' & a' & Heq' & Hb' & Hq').
        rewrite (Huniq b' q' a' Heq' Hb') in Hq'; eauto.
    + split.
      * intros H. by exists before, q, after.
      * intros (b' & q' & a' & Heq' & Hb' & Hq').
        rewrite (Huniq b' q' a' Heq' Hb') in Hq'; eauto.
    + intros recs e. split.
      * intros H. destruct Hq as [Hq|[? Hq]]; congruence.
      * intros (Hall & _).
        apply Forall_app in Hall as [_ [(? & ? & Hr) _]%Forall_cons].
        destruct Hq as [Hq|[? Hq]]; congruence.
Qed.

Lemma DelegatingParser_decided_by_first_witness :
  let panicking := {| Parse := fun _ => Panicked |} in
  let rejecting := {| Parse := fun _ => Returned incorrectHeader |} in
  DelegatingParser_Parse {| Parsers := [rejecting; panicking; rejecting] |}
    "any output" = Panicked.
Proof.
  intros panicking rejecting.
  apply (proj1 (proj2 (DelegatingParser_decided_by_first
                         {| Parsers := [rejecting; panicking; rejecting] |}
                         "any output"))).
  exists [rejecting], panicking, [rejecting]. split_and!.
  - reflexivity.
  - constructor; [|constructor].
    exists [], (errors_New "incorrect header"). reflexivity.
  - reflexivity.
Defined.

(** X12.  A [DelegatingParser] used as one of the parsers of another
    behaves as if its own parsers were written in its place: nesting
    dispatchers and concatenating their lists give the same result on
    every output. *)
Theorem DelegatingParser_nesting (inner : DelegatingParser)
    (before after : list DescribeGroupParser) (output : string) :
  DelegatingParser_Parse
    {| Parsers := before ++ DelegatingParser_iface inner :: after |} output =
  DelegatingParser_Parse
    {| Parsers := before ++ Parsers inner ++ after |} output.
Proof.
  unfold DelegatingParser_Parse. simpl.
  rewrite !delegate_app.
  destruct (delegate before output) as [[? [?|]]|]; reflexivity.
Qed.

End DelegatingMore.

(** ** The format of Kafka 0.10.2.1: rows are read back *)

Section Format_0_10_2_1.

Lemma decides_Literal lit idx rest cap :
  decides (regexp.Literal lit) idx lit rest cap cap.
Proof.
  intros A k Hk. simpl.
  by rewrite (proj2 (stripPrefix_spec (lit +:+ rest) lit rest) eq_refl).
Qed.

Lemma star_maximal {A} cc w rest (k : string -> option A) :
  allIn cc w = true -> stops cc rest -> is_Some (k rest) ->
  regexp.star cc (w +:+ rest) k = k rest.
Proof.
  intros Hw Hstop [r Hk]. induction w as [|c w IH].
  - change (EmptyString +:+ rest) with rest.
    destruct rest as [|c rest]; simpl in *; [done|]. by rewrite Hstop.
  - rewrite app_cons. simpl in *. apply andb_true_iff in Hw as [-> Hw].
    by rewrite (IH Hw), Hk.
Qed.

Lemma decides_Plus cc idx w rest cap :
  lang (regexp.Plus cc) w -> stops cc rest ->
  decides (regexp.Plus cc) idx w rest cap cap.
Proof.
  intros [Hne Hw] Hstop A k Hk. simpl.
  destruct w as [|c w]; [done|]. rewrite app_cons. simpl in *.
  apply andb_true_iff in Hw as [-> Hw].
  by apply (star_maximal cc w rest (fun rest0 => k rest0 cap)).
Qed.

Lemma decides_Concat r1 r2 idx w1 w2 rest cap cap1 cap' :
  decides r1 idx w1 (w2 +:+ rest) cap cap1 ->
  decides r2 (idx + regexp.NumSubexp r1)%nat w2 rest cap1 cap' ->
  decides (regexp.Concat r1 r2) idx (w1 +:+ w2) rest cap cap'.
Proof.
  intros H1 H2 A k Hk. simpl. rewrite string_app_assoc.
  rewrite H1; rewrite H2; done.
Qed.

Lemma decides_Capture name r idx w rest cap cap1 :
  decides r (S idx) w rest cap cap1 ->
  decides (regexp.Capture name r) idx w rest cap (<[idx := w]> cap1).
Proof.
  intros H A k Hk. simpl. rewrite H; rewrite consumed_app; done.
Qed.

Lemma decides_doExecute re w rest cap' :
  decides re 1 w rest (replicate (S (regexp.NumSubexp re)) EmptyString) cap' ->
  regexp.doExecute re (w +:+ rest) = Some (<[0%nat := w]> cap').
Proof.
  intros H.
  assert (regexp.matchAt re (w +:+ rest) = Some (<[0%nat := w]> cap')) as Hm.
  { unfold regexp.matchAt. rewrite H; rewrite consumed_app; done. }
  destruct (w +:+ rest); simpl; by rewrite Hm.
Qed.

Lemma stops_after cc cc' (t u : string) :
  (forall c, regexp.classMatches cc' c = true ->
             regexp.classMatches cc c = false) ->
  lang (regexp.Plus cc') t -> stops cc (t +:+ u).
Proof.
  intros Hdisj [Hne Ht]. destruct t as [|c t]; [done|].
  rewrite app_cons. simpl in *. apply andb_true_iff in Ht as [Hc _]. auto.
Qed.

Lemma space_not_topic c :
  regexp.classMatches regexp.space c = true ->
  regexp.classMatches topicClass c = false.
Proof. destruct c as [[] [] [] [] [] [] [] []]; vm_compute; congruence. Qed.

Lemma space_not_digit c :
  regexp.classMatches regexp.space c = true ->
  regexp.classMatches regexp.digit c = false.
Proof. destruct c as [[] [] [] [] [] [] [] []]; vm_compute; congruence. Qed.

Lemma digit_not_space c :
  regexp.classMatches regexp.digit c = true ->
  regexp.classMatches regexp.space c = false.
Proof. destruct c as [[] [] [] [] [] [] [] []]; vm_compute; congruence. Qed.

Lemma space_not_notSpace c :
  regexp.classMatches regexp.space c = true ->
  regexp.classMatches regexp.notSpace c = false.
Proof. destruct c as [[] [] [] [] [] [] [] []]; vm_compute; congruence. Qed.

Lemma notSpace_not_space c :
  regexp.classMatches regexp.notSpace c = true ->
  regexp.classMatches regexp.space c = false.
Proof. destruct c as [[] [] [] [] [] [] [] []]; vm_compute; congruence. Qed.

Lemma int64OrSentinel_parseLong w :
  lang (regexp.Plus regexp.digit) w -> (parseLong w).1 = int64OrSentinel w.
Proof.
  intros Hw. rewrite parseLong_value, (ParseInt_digits w Hw).
  unfold int64OrSentinel. by case_decide.
Qed.

(** The submatches of a well-formed detail line. *)
Lemma doExecute_row (sep : nat -> string) (r : row) :
  wellFormedRow r ->
  (forall i, lang (regexp.Plus regexp.space) (sep i)) ->
  regexp.doExecute line_0_10_2_1 (render sep r) =
    Some [render sep r; rTopic r; rPartition r; rOffset r; rLag r;
          rConsumer r; rHost r; rClient r].
Proof.
  intros (Ht & Hp & Ho & He & Hl & Hc & Hh & Hcl) Hsep.
  eassert (decides line_0_10_2_1 1 (render sep r) EmptyString
             (replicate (S (regexp.NumSubexp line_0_10_2_1)) EmptyString) _)
    as Hd.
  { unfold line_0_10_2_1, render. cbn [regexp.concat regexp.NumSubexp].
    repeat first
      [ eapply decides_Concat; cbn [regexp.NumSubexp Nat.add]
      | eapply decides_Capture
      | eapply decides_Plus; [first [done | apply Hsep] |] ];
    rewrite ?string_app_assoc;
    first [ exact I
          | eapply stops_after; [|apply Hsep]; first
              [ exact space_not_topic | exact space_not_digit
              | exact space_not_notSpace ]
          | eapply stops_after; [|eassumption]; first
              [ exact digit_not_space | exact notSpace_not_space ] ]. }
  apply decides_doExecute in Hd. rewrite append_empty_r in Hd.
  rewrite Hd. reflexivity.
Qed.

Lemma parseLine_row_record (sep : nat -> string) (r : row) :
  wellFormedRow r ->
  (forall i, lang (regexp.Plus regexp.space) (sep i)) ->
  parseLine (initialised header_0_10_2_1 line_0_10_2_1) (render sep r) =
    Returned (recordOfRow r, None).
Proof.
  intros Hr Hsep.
  pose proof (doExecute_row sep r Hr Hsep) as Hm.
  destruct Hr as (Ht & Hp & Ho & He & Hl & Hc & Hh & Hcl).
  rewrite (parseLine_matched _ (render sep r) (rOffset r) (rLag r) (rTopic r)
             (rPartition r) (rClient r) (rHost r)).
  - unfold recordOfRow. by rewrite !int64OrSentinel_parseLong.
  - unfold regexp.FindStringSubmatch. cbn [line initialised]. by rewrite Hm.
  - unfold regexp.FindStringSubmatch. cbn [line initialised]. by rewrite Hm.
  - unfold regexp.FindStringSubmatch. cbn [line initialised]. by rewrite Hm.
  - unfold regexp.FindStringSubmatch. cbn [line initialised]. by rewrite Hm.
  - unfold regexp.FindStringSubmatch. cbn [line initialised]. by rewrite Hm.
  - unfold regexp.FindStringSubmatch. cbn [line initialised]. by rewrite Hm.
Qed.

(** X13.  The parser of Kafka 0.10.2.1 reads a well-formed detail line
    back: for columns of topic characters, digits and non-blank bytes,
    separated by any non-empty runs of white space, [parseLine] returns
    the record with the topic, partition, host (as consumer address) and
    client columns verbatim, and the current offset and lag columns as
    numbers (-1 when they do not fit 64 bits); the log-end-offset and
    consumer-id columns are dropped. *)
Theorem parseLine_reads_row (p : regexpParser) (sep : nat -> string) (r : row) :
  kafka0_10_2_1DescribeGroupParser = Some p ->
  wellFormedRow r ->
  (forall i, lang (regexp.Plus regexp.space) (sep i)) ->
  parseLine p (render sep r) = Returned (recordOfRow r, None).
Proof.
  rewrite builtin_0_10_2_1. intros [= <-] Hr Hsep.
  by apply parseLine_row_record.
Qed.

Lemma parseLine_reads_row_witness :
  parseLine (initialised header_0_10_2_1 line_0_10_2_1)
    "orders   12  99999999999999999999   110 5  consumer-1-abc /10.0.0.5   app-client-1"
  = Returned ({| Topic := "orders"; PartitionID := "12"; CurrentOffset := -1;
                 Lag := 5; ClientID := "app-client-1";
                 ConsumerAddress := "/10.0.0.5" |}, None).
Proof.
  apply (parseLine_reads_row (initialised header_0_10_2_1 line_0_10_2_1)
           (fun i => match i with
                     | 0%nat | 2%nat | 6%nat => "   "
                     | 1%nat | 5%nat => "  "
                     | _ => " "
                     end)
           {| rTopic := "orders"; rPartition := "12";
              rOffset := "99999999999999999999"; rLogEnd := "110"; rLag := "5";
              rConsumer := "consumer-1-abc"; rHost := "/10.0.0.5";
              rClient := "app-client-1" |}).
  - vm_compute. reflexivity.
  - repeat split; (discriminate || (vm_compute; reflexivity)).
  - intros i. split.
    + do 7 (destruct i as [|i]; [discriminate|]). discriminate.
    + do 7 (destruct i as [|i]; [vm_compute; reflexivity|]).
      vm_compute. reflexivity.
Defined.

Lemma Count_app (a b : string) c :
  strings.Count (a +:+ b) c = (strings.Count a c + strings.Count b c)%nat.
Proof.
  induction a as [|x a IH]; [done|]. rewrite app_cons. simpl. rewrite IH. lia.
Qed.

Lemma Count_class cc (w : string) c :
  regexp.classMatches cc c = false -> allIn cc w = true ->
  strings.Count w c = 0%nat.
Proof.
  intros Hc. induction w as [|x w IH]; simpl; [done|].
  intros [Hx Hw]%andb_true_iff. rewrite (IH Hw).
  destruct (Ascii.eqb_spec x c) as [->|]; [congruence | done].
Qed.

Lemma render_one_line (sep : nat -> string) (r : row) :
  wellFormedRow r ->
  (forall i, strings.Count (sep i) strings.newline = 0%nat) ->
  strings.Count (render sep r) strings.newline = 0%nat.
Proof.
  intros (Ht & Hp & Ho & He & Hl & Hc & Hh & Hcl) Hsep.
  unfold render. rewrite !Count_app, !Hsep.
  rewrite (Count_class topicClass (rTopic r)) by (done || apply Ht).
  rewrite (Count_class regexp.digit (rPartition r)) by (done || apply Hp).
  rewrite (Count_class regexp.digit (rOffset r)) by (done || apply Ho).
  rewrite (Count_class regexp.digit (rLogEnd r)) by (done || apply He).
  rewrite (Count_class regexp.digit (rLag r)) by (done || apply Hl).
  rewrite (Count_class regexp.notSpace (rConsumer r)) by (done || apply Hc).
  rewrite (Count_class regexp.notSpace (rHost r)) by (done || apply Hh).
  by rewrite (Count_class regexp.notSpace (rClient r)) by (done || apply Hcl).
Qed.

Lemma parseLines_rows (p : regexpParser) (sep : nat -> string) (rows : list row) :
  kafka0_10_2_1DescribeGroupParser = Some p ->
  Forall wellFormedRow rows ->
  (forall i, lang (regexp.Plus regexp.space) (sep i)) ->
  forall acc,
    parseLines p (render sep <$> rows) acc =
      Returned (acc ++ (recordOfRow <$> rows), None).
Proof.
  intros Hp Hrows Hsep.
  induction Hrows as [|r rows Hr _ IH]; intros acc; simpl.
  - by rewrite app_nil_r.
  - rewrite builtin_0_10_2_1 in Hp. injection Hp as <-.
    rewrite (parseLine_row_record sep r Hr Hsep). simpl.
    rewrite IH by apply builtin_0_10_2_1. by rewrite <- app_assoc.
Qed.

Lemma DefaultParser_value (P : DescribeGroupParser) :
  DefaultParser = Some P ->
  P = DelegatingParser_iface
        {| Parsers :=
             [regexpParser_iface (initialised header_0_9_0_1 line_0_9_0_1);
              regexpParser_iface (initialised header_0_10_0_1 line_0_10_0_1);
              regexpParser_iface (initialised header_0_10_2_1 line_0_10_2_1)] |}.
Proof.
  unfold DefaultParser.
  rewrite builtin_0_9_0_1, builtin_0_10_0_1, builtin_0_10_2_1.
  by intros [= <-].
Qed.

(** X14.  End to end: an output made of a first line that only the
    header pattern of Kafka 0.10.2.1 matches, followed by the detail lines
    of well-formed rows, one per line and without a final line
    terminator, is parsed by the default parser into the records of these
    rows, in order and without error.  The two older formats are tried
    first and reject the output on its header. *)
Theorem DefaultParser_reads_rows (P : DescribeGroupParser) (headerLine : string)
    (sep : nat -> string) (rows : list row) :
  DefaultParser = Some P ->
  strings.Count headerLine strings.newline = 0%nat ->
  regexp.MatchString header_0_9_0_1 headerLine = false ->
  regexp.MatchString header_0_10_0_1 headerLine = false ->
  regexp.MatchString header_0_10_2_1 headerLine = true ->
  Forall wellFormedRow rows ->
  (forall i, lang (regexp.Plus regexp.space) (sep i) /\
             strings.Count (sep i) strings.newline = 0%nat) ->
  Parse P (strings.Join (headerLine :: (render sep <$> rows)) strings.newline) =
    Returned (recordOfRow <$> rows, None).
Proof.
  intros ->%DefaultParser_value Hh H09 H0100 H0102 Hrows Hsep.
  assert (strings.Split
            (strings.Join (headerLine :: (render sep <$> rows)) strings.newline)
            strings.newline = headerLine :: (render sep <$> rows)) as Hsplit.
  { apply Split_Join; [done|]. constructor; [done|].
    apply Forall_fmap. eapply Forall_impl; [exact Hrows|].
    intros r Hr. apply render_one_line; [done | apply Hsep]. }
  change (delegate
            [regexpParser_iface (initialised header_0_9_0_1 line_0_9_0_1);
             regexpParser_iface (initialised header_0_10_0_1 line_0_10_0_1);
             regexpParser_iface (initialised header_0_10_2_1 line_0_10_2_1)]
            (strings.Join (headerLine :: (render sep <$> rows)) strings.newline)
          = Returned (recordOfRow <$> rows, None)).
  cbn [delegate Parse regexpParser_iface]. unfold regexpParser_Parse.
  rewrite Hsplit. cbn [header line initialised].
  rewrite H09, H0100, H0102. simpl.
  rewrite (parseLines_rows _ sep rows builtin_0_10_2_1 Hrows (fun i => proj1 (Hsep i))).
  done.
Qed.

Lemma DefaultParser_reads_rows_witness :
  Parse
    (DelegatingParser_iface
       {| Parsers :=
            [regexpParser_iface (initialised header_0_9_0_1 line_0_9_0_1);
             regexpParser_iface (initialised header_0_10_0_1 line_0_10_0_1);
             regexpParser_iface (initialised header_0_10_2_1 line_0_10_2_1)] |})
    (strings.Join
       [header_text_0_10_2_1;
        "orders 0 105 110 5 consumer-1-abc /10.0.0.5 app-client-1";
        "orders 1 42 50 8 consumer-1-abc /10.0.0.5 app-client-1"]
       strings.newline) =
  Returned
    ([{| Topic := "orders"; PartitionID := "0"; CurrentOffset := 105; Lag := 5;
         ClientID := "app-client-1"; ConsumerAddress := "/10.0.0.5" |};
      {| Topic := "orders"; PartitionID := "1"; CurrentOffset := 42; Lag := 8;
         ClientID := "app-client-1"; ConsumerAddress := "/10.0.0.5" |}], None).
Proof.
  apply (DefaultParser_reads_rows _ header_text_0_10_2_1 (fun _ => " ")
    [{| rTopic := "orders"; rPartition := "0"; rOffset := "105";
        rLogEnd := "110"; rLag := "5"; rConsumer := "consumer-1-abc";
        rHost := "/10.0.0.5"; rClient := "app-client-1" |};
     {| rTopic := "orders"; rPartition := "1"; rOffset := "42";
        rLogEnd := "50"; rLag := "8"; rConsumer := "consumer-1-abc";
        rHost := "/10.0.0.5"; rClient := "app-client-1" |}]).
  - unfold DefaultParser.
    rewrite builtin_0_9_0_1, builtin_0_10_0_1, builtin_0_10_2_1. reflexivity.
  - vm_compute. reflexivity.
  - vm_compute. reflexivity.
  - vm_compute. reflexivity.
  - vm_compute. reflexivity.
  - repeat constructor; (discriminate || (vm_compute; reflexivity)).
  - intros i. repeat split; (discriminate || (vm_compute; reflexivity)).
Defined.

(** X15.  An output whose first line matches none of the three header
    patterns is rejected by the default parser with the error "no parser
    could parse the output" and the nil slice, whatever its other lines
    are: no line pattern is tried and nothing can panic. *)
Theorem DefaultParser_unknown_header (P : DescribeGroupParser)
    (output headerLine : string) (dataLines : list string) :
  DefaultParser = Some P ->
  strings.Split output strings.newline = headerLine :: dataLines ->
  regexp.MatchString header_0_9_0_1 headerLine = false ->
  regexp.MatchString header_0_10_0_1 headerLine = false ->
  regexp.MatchString header_0_10_2_1 headerLine = false ->
  Parse P output = Returned noParser.
Proof.
  intros ->%DefaultParser_value Hs H09 H0100 H0102.
  change (delegate
            [regexpParser_iface (initialised header_0_9_0_1 line_0_9_0_1);
             regexpParser_iface (initialised header_0_10_0_1 line_0_10_0_1);
             regexpParser_iface (initialised header_0_10_2_1 line_0_10_2_1)]
            output = Returned noParser).
  cbn [delegate Parse regexpParser_iface]. unfold regexpParser_Parse.
  rewrite Hs. cbn [header line initialised].
  by rewrite H09, H0100, H0102.
Qed.

Lemma DefaultParser_unknown_header_witness :
  Parse
    (DelegatingParser_iface
       {| Parsers :=
            [regexpParser_iface (initialised header_0_9_0_1 line_0_9_0_1);
             regexpParser_iface (initialised header_0_10_0_1 line_0_10_0_1);
             regexpParser_iface (initialised header_0_10_2_1 line_0_10_2_1)] |})
    ("Error: Consumer group `orders` does not exist." +:+ nl +:+ nl)
  = Returned noParser.
Proof.
  apply (DefaultParser_unknown_header _ _
           "Error: Consumer group `orders` does not exist."
           [EmptyString; EmptyString]).
  - unfold DefaultParser.
    rewrite builtin_0_9_0_1, builtin_0_10_0_1, builtin_0_10_2_1. reflexivity.
  - vm_compute. reflexivity.
  - vm_compute. reflexivity.
  - vm_compute. reflexivity.
  - vm_compute. reflexivity.
Defined.

End Format_0_10_2_1.

(** ** The format of Kafka 0.9.0.1: the owner is split at its last [_/] *)

Section Format_0_9_0_1.

(** A greedy run that backs off: when the continuation fails after every
    longer run, the run is the one the continuation accepts. *)
Lemma star_all_fail {A} cc rest (k : string -> option A) :
  (forall w2 rest2, rest = w2 +:+ rest2 -> w2 <> EmptyString ->
     allIn cc w2 = true -> k rest2 = None) ->
  regexp.star cc rest k = k rest.
Proof.
  induction rest as [|c rest IH]; intros Hfail; simpl; [done|].
  destruct (regexp.classMatches cc c) eqn:Hc; [|done].
  rewrite IH.
  - by rewrite (Hfail (String c EmptyString) rest eq_refl)
      by (done || (simpl; by rewrite Hc)).
  - intros w2 rest2 -> Hne Hw2.
    apply (Hfail (String c w2) rest2); [done | done |].
    simpl. by rewrite Hc, Hw2.
Qed.

Lemma star_backoff {A} cc w rest (k : string -> option A) :
  allIn cc w = true -> is_Some (k rest) ->
  (forall w2 rest2, rest = w2 +:+ rest2 -> w2 <> EmptyString ->
     allIn cc w2 = true -> k rest2 = None) ->
  regexp.star cc (w +:+ rest) k = k rest.
Proof.
  intros Hw [r Hk] Hfail. induction w as [|c w IH].
  - by apply star_all_fail.
  - rewrite app_cons. simpl in *. apply andb_true_iff in Hw as [-> Hw].
    by rewrite (IH Hw), Hk.
Qed.

Lemma stripPrefix_None_or (s lit : string) :
  regexp.stripPrefix s lit = None \/
  exists rest, s = lit +:+ rest /\ regexp.stripPrefix s lit = Some rest.
Proof.
  destruct (regexp.stripPrefix s lit) as [rest|] eqn:E; [|by left].
  right. exists rest. split; [by apply stripPrefix_spec | done].
Qed.

(** The owner [client_/address] under [(.+)_/(.+)]: the first group backs
    off to the last [_/] that is followed by a byte. *)
Lemma decides_owner n1 n2 idx client address cap :
  lang (regexp.Plus regexp.anyCharNotNL) client ->
  lang (regexp.Plus regexp.anyCharNotNL) address ->
  strings.Contains address "_/" = false ->
  decides
    (regexp.Concat (regexp.Capture n1 (regexp.Plus regexp.anyCharNotNL))
       (regexp.Concat (regexp.Literal "_/")
          (regexp.Capture n2 (regexp.Plus regexp.anyCharNotNL))))
    idx (client +:+ "_/" +:+ address) EmptyString cap
    (<[S idx := address]> (<[idx := client]> cap)).
Proof.
  intros [Hcne Hc] [Hane Ha] Hno A k Hk.
  rewrite append_empty_r.
  cbn [regexp.backtrack regexp.NumSubexp Nat.add].
  replace (idx + 1 + 0)%nat with (S idx) by lia.
  destruct client as [|c client]; [done|].
  rewrite app_cons. unfold regexp.plus. simpl in Hc.
  apply andb_true_iff in Hc as [Hc0 Hc]. rewrite Hc0.
  rewrite <- app_cons.
  set (S0 := String c client +:+ "_/" +:+ address).
  set (K := fun rest : string =>
              match regexp.stripPrefix rest "_/" with
              | Some rest0 =>
                  regexp.plus regexp.anyCharNotNL rest0
                    (fun rest1 =>
                       k rest1
                         (<[S idx := regexp.consumed rest0 rest1]>
                            (<[idx := regexp.consumed S0 rest]> cap)))
              | None => None
              end).
  change (regexp.star regexp.anyCharNotNL (client +:+ "_/" +:+ address) K
          = k EmptyString
              (<[S idx := address]> (<[idx := String c client]> cap))).
  assert (K ("_/" +:+ address) =
          k EmptyString (<[S idx := address]> (<[idx := String c client]> cap)))
    as HK.
  { unfold K.
    rewrite (proj2 (stripPrefix_spec ("_/" +:+ address) "_/" address) eq_refl).
    unfold S0. rewrite consumed_app.
    destruct address as [|a address]; [done|].
    unfold regexp.plus. simpl in Ha.
    apply andb_true_iff in Ha as [Ha0 Ha]. rewrite Ha0.
    rewrite <- (append_empty_r address) at 1.
    rewrite (star_maximal regexp.anyCharNotNL address EmptyString
               (fun rest1 =>
                  k rest1
                    (<[S idx := regexp.consumed (String a address) rest1]>
                       (<[idx := String c client]> cap)))).
    - rewrite <- (append_empty_r (String a address)) at 1.
      by rewrite consumed_app.
    - done.
    - done.
    - rewrite <- (append_empty_r (String a address)) at 1.
      by rewrite consumed_app. }
  rewrite <- HK. apply star_backoff; [done | by rewrite HK |].
  intros w2 rest2 Heq Hne Hw2. unfold K.
  destruct (stripPrefix_None_or rest2 "_/") as [-> | (rest0 & -> & ->)]; [done|].
  destruct rest0 as [|x rest0]; [done|].
  exfalso.
  destruct w2 as [|y1 [|y2 w2]]; [done| |].
  - rewrite !app_cons in Heq. injection Heq as _ Heq. discriminate Heq.
  - rewrite !app_cons in Heq. injection Heq as _ _ Heq.
    assert (strings.Contains address "_/" = true) as Hyes.
    { apply Contains_spec. exists w2, (String x rest0). exact Heq. }
    congruence.
Qed.

Lemma doExecute_oldRow (r : oldRow) :
  wellFormedOldRow r ->
  regexp.doExecute line_0_9_0_1 (renderOld r) =
    Some [renderOld r; oTopic r; oPartition r; oOffset r; oLag r;
          oClient r; oAddress r].
Proof.
  intros (Hg & Ht & Hp & Ho & He & Hl & Hc & Ha & Hno).
  eassert (decides line_0_9_0_1 1 (renderOld r) EmptyString
             (replicate (S (regexp.NumSubexp line_0_9_0_1)) EmptyString) _)
    as Hd.
  { unfold line_0_9_0_1, renderOld. cbn [regexp.concat regexp.NumSubexp].
    repeat first
      [ by apply decides_owner
      | eapply decides_Concat; cbn [regexp.NumSubexp Nat.add]
      | apply decides_Literal
      | eapply decides_Capture
      | eapply decides_Plus; [eassumption|] ];
    reflexivity. }
  apply decides_doExecute in Hd. rewrite append_empty_r in Hd.
  rewrite Hd. reflexivity.
Qed.

(** X16.  The parser of Kafka 0.9.0.1 reads a well-formed detail line
    back, and splits the owner column at its last [_/]: the client id is
    everything before it, further [_/] included, and the consumer address
    everything after it.  The group column is dropped; the numeric
    columns are converted as in the other formats. *)
Theorem parseLine_reads_oldRow (p : regexpParser) (r : oldRow) :
  kafka0_9_0_1DescribeGroupParser = Some p ->
  wellFormedOldRow r ->
  parseLine p (renderOld r) = Returned (recordOfOldRow r, None).
Proof.
  rewrite builtin_0_9_0_1. intros [= <-] Hr.
  pose proof (doExecute_oldRow r Hr) as Hm.
  destruct Hr as (Hg & Ht & Hp & Ho & He & Hl & Hc & Ha & Hno).
  rewrite (parseLine_matched _ (renderOld r) (oOffset r) (oLag r) (oTopic r)
             (oPartition r) (oClient r) (oAddress r)).
  - unfold recordOfOldRow. by rewrite !int64OrSentinel_parseLong.
  - unfold regexp.FindStringSubmatch. cbn [line initialised]. by rewrite Hm.
  - unfold regexp.FindStringSubmatch. cbn [line initialised]. by rewrite Hm.
  - unfold regexp.FindStringSubmatch. cbn [line initialised]. by rewrite Hm.
  - unfold regexp.FindStringSubmatch. cbn [line initialised]. by rewrite Hm.
  - unfold regexp.FindStringSubmatch. cbn [line initialised]. by rewrite Hm.
  - unfold regexp.FindStringSubmatch. cbn [line initialised]. by rewrite Hm.
Qed.

Lemma parseLine_reads_oldRow_witness :
  parseLine (initialised header_0_9_0_1 line_0_9_0_1)
    "billing, orders, 3, 1200, 1250, 50, app_/worker_/10.0.0.7"
  = Returned ({| Topic := "orders"; PartitionID := "3"; CurrentOffset := 1200;
                 Lag := 50; ClientID := "app_/worker";
                 ConsumerAddress := "10.0.0.7" |}, None).
Proof.
  apply (parseLine_reads_oldRow (initialised header_0_9_0_1 line_0_9_0_1)
           {| oGroup := "billing"; oTopic := "orders"; oPartition := "3";
              oOffset := "1200"; oLogEnd := "1250"; oLag := "50";
              oClient := "app_/worker"; oAddress := "10.0.0.7" |}).
  - vm_compute. reflexivity.
  - repeat split; (discriminate || (vm_compute; reflexivity)).
Defined.

End Format_0_9_0_1.
